(** * Hello-world over a UART-lite: the register block, the driver and its runs

    A shallow embedding of [source/hello_world_test/main.c].  The driver
    functions are interaction trees over 32-bit volatile loads and stores;
    a device (a trace of register snapshots) answers the loads.  Runs are
    computed by a fuel-bounded executor that records every access. *)

From Stdlib Require Import ZArith Ascii String List Bool Lia.
From ITree Require Import ITree Eq.Shallow.
Import ListNotations.
Import ITreeNotations.

Local Open Scope Z_scope.
Local Open Scope itree_scope.

(* ===================================================================== *)
(** ** The register block [uartlite_s] *)
(* ===================================================================== *)

Module Layout.

(** A bit-field declarator [uint32_t volatile name : width;] (no name for
    padding such as [uint32_t volatile : 2;]). *)
Record bitdecl := BitDecl {
  b_name : option string;
  b_const : bool;
  b_width : Z
}.

(** The two member shapes [uartlite_s] uses: a plain [uint32_t] word, and
    an anonymous union of a [uint32_t] word with an anonymous struct of
    bit-fields. *)
Inductive member :=
| Scalar (name : string) (const : bool)
| Overlay (name : string) (const : bool) (flags : list bitdecl).

(** Where a named member ends up: byte offset from the start of the
    struct, position of its least significant bit in the 32-bit word at
    that offset, width in bits, and whether it is [const]. *)
Record field := Field {
  f_name : string;
  f_offset : Z;
  f_lsb : Z;
  f_width : Z;
  f_const : bool
}.

(** Bit-fields are allocated from the least significant bit of their
    [uint32_t] unit upwards, in declaration order (the rule GCC follows on
    little-endian targets); one that does not fit in what is left of the
    unit starts the next unit.  [base] is the byte offset of the first
    unit, [cursor] the number of bits already allocated. *)
Fixpoint place_bits (base cursor : Z) (ds : list bitdecl) : list field * Z :=
  match ds with
  | [] => ([], cursor)
  | d :: rest =>
      let start :=
        if (cursor mod 32 + b_width d >? 32) then (cursor / 32 + 1) * 32 else cursor in
      let '(fs, fin) := place_bits base (start + b_width d) rest in
      (match b_name d with
       | Some n => Field n (base + 4 * (start / 32)) (start mod 32) (b_width d) (b_const d) :: fs
       | None => fs
       end, fin)
  end.

(** Members of a struct follow each other; every member here has
    [uint32_t] alignment, so an overlay occupies whole words. *)
Fixpoint place (offset : Z) (ms : list member) : list field :=
  match ms with
  | [] => []
  | Scalar n c :: rest => Field n offset 0 32 c :: place (offset + 4) rest
  | Overlay n c flags :: rest =>
      let '(fs, bits) := place_bits offset 0 flags in
      let words := Z.max 1 ((bits + 31) / 32) in
      Field n offset 0 32 c :: fs ++ place (offset + 4 * words) rest
  end.

Definition layout (ms : list member) : list field := place 0 ms.

Definition lookup (fs : list field) (n : string) : option field :=
  find (fun f => String.eqb (f_name f) n) fs.

End Layout.

Import Layout.

Local Open Scope string_scope.

(** The declaration of [uartlite_s], member by member. *)
Definition uartlite_s : list member :=
  [ Scalar "rx_fifo" true;
    Scalar "tx_fifo" false;
    Overlay "status" true
      [ BitDecl (Some "rx_valid") true 1;
        BitDecl (Some "rx_full") true 1;
        BitDecl (Some "tx_empty") true 1;
        BitDecl (Some "tx_full") true 1;
        BitDecl (Some "intr_enabled") true 1;
        BitDecl (Some "overrun") true 1;
        BitDecl (Some "frame") true 1;
        BitDecl (Some "parity") true 1 ];
    Overlay "control" false
      [ BitDecl (Some "tx_reset") false 1;
        BitDecl (Some "rx_reset") false 1;
        BitDecl None false 2;
        BitDecl (Some "intr_enable") false 1 ] ].

(** Member access [uart->name]: the descriptor of a member of
    [uartlite_s].  A name the struct does not declare does not compile in
    C; here it yields a zero-width field past the end of the block. *)
Definition member_of (n : string) : field :=
  match lookup (layout uartlite_s) n with
  | Some f => f
  | None => Field n 16 0 0 true
  end.

Definition rx_fifo : field := Eval cbv in member_of "rx_fifo".
Definition tx_fifo : field := Eval cbv in member_of "tx_fifo".
Definition status : field := Eval cbv in member_of "status".
Definition rx_valid : field := Eval cbv in member_of "rx_valid".
Definition rx_full : field := Eval cbv in member_of "rx_full".
Definition tx_empty : field := Eval cbv in member_of "tx_empty".
Definition tx_full : field := Eval cbv in member_of "tx_full".
Definition intr_enabled : field := Eval cbv in member_of "intr_enabled".
Definition overrun : field := Eval cbv in member_of "overrun".
Definition frame : field := Eval cbv in member_of "frame".
Definition parity : field := Eval cbv in member_of "parity".
Definition control : field := Eval cbv in member_of "control".
Definition tx_reset : field := Eval cbv in member_of "tx_reset".
Definition rx_reset : field := Eval cbv in member_of "rx_reset".
Definition intr_enable : field := Eval cbv in member_of "intr_enable".

Local Close Scope string_scope.

(* ===================================================================== *)
(** ** Machine integers and characters *)
(* ===================================================================== *)

(** [uint32_t] arithmetic wraps modulo 2^32. *)
Definition u32 (z : Z) : Z := z mod 2 ^ 32.

(** The value of a bit-field inside the word that holds it. *)
Definition get_field (f : field) (word : Z) : Z :=
  Z.land (Z.shiftr word (f_lsb f)) (Z.ones (f_width f)).

(** The word after assigning [v] to a bit-field: the field's bits are
    replaced by the low bits of [v], every other bit is kept. *)
Definition set_field (f : field) (word v : Z) : Z :=
  u32 (Z.lor (Z.land word (Z.lnot (Z.shiftl (Z.ones (f_width f)) (f_lsb f))))
             (Z.shiftl (Z.land v (Z.ones (f_width f))) (f_lsb f))).

(** A [char] is kept as its byte.  Whether plain [char] is signed is the
    target's choice; [char_value] is the number a [char] stands for. *)
Definition byte_of (c : ascii) : Z := Z.of_N (N_of_ascii c).

Definition char_value (char_signed : bool) (c : ascii) : Z :=
  if char_signed && (128 <=? byte_of c) then byte_of c - 256 else byte_of c.

(** The conversions of [uart->tx_fifo = c] and [(char)uart->rx_fifo]. *)
Definition u32_of_char (char_signed : bool) (c : ascii) : Z :=
  u32 (char_value char_signed c).

Definition char_of_u32 (v : Z) : ascii := ascii_of_N (Z.to_N (v mod 2 ^ 8)).

Definition NUL : ascii := zero.

(* ===================================================================== *)
(** ** Volatile accesses as events *)
(* ===================================================================== *)

(** A 32-bit load or store at an address, and the undefined behaviour of
    reading a string past the end of its array. *)
Variant uartE : Type -> Type :=
| Load (addr : Z) : uartE Z
| Store (addr : Z) (v : Z) : uartE unit
| Trap : uartE Empty_set.

Definition load (addr : Z) : itree uartE Z := ITree.trigger (Load addr).
Definition store (addr v : Z) : itree uartE unit := ITree.trigger (Store addr v).
Definition trap {R : Type} : itree uartE R :=
  x <- ITree.trigger Trap ;; match x : Empty_set with end.

(** Reading [uart->f] loads the word that holds [f] and extracts it. *)
Definition read_member (uart : Z) (f : field) : itree uartE Z :=
  word <- load (uart + f_offset f) ;;
  Ret (get_field f word).

(** Writing [uart->f = v]: a whole word is stored as it is; a bit-field
    is a load of its word, then a store of the word with the field
    replaced. *)
Definition write_member (uart : Z) (f : field) (v : Z) : itree uartE unit :=
  if f_width f =? 32 then store (uart + f_offset f) (u32 v)
  else
    word <- load (uart + f_offset f) ;;
    store (uart + f_offset f) (set_field f word v).

(** [while (cond) body] *)
Definition while (cond : itree uartE bool) (body : itree uartE unit)
  : itree uartE unit :=
  ITree.iter (fun _ : unit =>
    b <- cond ;;
    if b : bool then body ;; Ret (inl tt) else Ret (inr tt)) tt.

(** C truth of an integer. *)
Definition truthy (z : Z) : bool := negb (z =? 0).

(* ===================================================================== *)
(** ** The driver *)
(* ===================================================================== *)

Section Driver.

Variable char_signed : bool.

Definition reset_uartlite (uart : Z) : itree uartE unit :=
  write_member uart tx_reset 1 ;;
  write_member uart rx_reset 1 ;;
  write_member uart intr_enable 0.

Definition putc_uartlite (uart : Z) (c : ascii) : itree uartE unit :=
  while (v <- read_member uart tx_full ;; Ret (truthy v)) (Ret tt) ;;
  write_member uart tx_fifo (char_value char_signed c).

Definition getc_uartlite (uart : Z) : itree uartE ascii :=
  while (v <- read_member uart rx_valid ;; Ret (negb (truthy v))) (Ret tt) ;;
  v <- read_member uart rx_fifo ;;
  Ret (char_of_u32 v).

(** [str] is the array the pointer points into, [pc] the index of the
    character the [for] loop is at. *)
Definition puts_loop (uart : Z) (str : list ascii) : nat -> itree uartE unit :=
  ITree.iter (fun pc : nat =>
    match nth_error str pc with
    | None => trap
    | Some ch =>
        if truthy (char_value char_signed ch)
        then putc_uartlite uart ch ;; Ret (inl (S pc))
        else Ret (inr tt)
    end).

Definition puts_uartlite (uart : Z) (str : list ascii) : itree uartE unit :=
  puts_loop uart str 0%nat.

Definition uartlite : Z := 0x40600000.

Definition hello_world : list ascii :=
  list_ascii_of_string "Hello, World!" ++ ["013"; "010"; NUL]%char.

Definition main : itree uartE Z :=
  reset_uartlite uartlite ;;
  ITree.forever (puts_uartlite uartlite hello_world).

End Driver.

(* ===================================================================== *)
(** ** The device and the runs of a program against it *)
(* ===================================================================== *)

(** What the hardware drives: the receive data word and the status word. *)
Record snapshot := Snapshot {
  rx_word : Z;
  status_word : Z
}.

(** A device trace gives the snapshot at every step.  A step is one poll
    of the status register: each load of the status word moves to the next
    snapshot and reads it (so every poll sees the live register), and the
    loads and stores of the other registers act within the step of the
    latest poll.  Step 0 is the time before the first poll. *)
Definition device := nat -> snapshot.

(** One volatile access, as the bus sees it, with the step it happens at. *)
Inductive access :=
| Rd (step : nat) (addr value : Z)
| Wr (step : nat) (addr value : Z).

(** The step reached, the words last stored to the two writable
    registers, and every access so far, oldest first. *)
Record world := World {
  now : nat;
  tx_latch : Z;
  control_latch : Z;
  log : list access
}.

Definition rx_addr : Z := uartlite + f_offset rx_fifo.
Definition tx_addr : Z := uartlite + f_offset tx_fifo.
Definition status_addr : Z := uartlite + f_offset status.
Definition control_addr : Z := uartlite + f_offset control.

(** The block is mapped at [uartlite]; an access anywhere else, and
    [Trap], have no answer.  The receive data and status words are the
    device's: loads read the current snapshot and stores are ignored.  The
    transmit data and control words are plain storage, as the struct is to
    the C program: a load gives back the word last stored (the mirror of
    the register). *)
Definition handle (d : device) {X : Type} (e : uartE X) (w : world)
  : option (X * world) :=
  match e in uartE X return option (X * world) with
  | Load addr =>
      if addr =? status_addr then
        let t := S (now w) in
        let v := status_word (d t) in
        Some (v, World t (tx_latch w) (control_latch w) (log w ++ [Rd t addr v]))
      else
        let answer (v : Z) :=
          Some (v, World (now w) (tx_latch w) (control_latch w)
                         (log w ++ [Rd (now w) addr v])) in
        if addr =? rx_addr then answer (rx_word (d (now w)))
        else if addr =? tx_addr then answer (tx_latch w)
        else if addr =? control_addr then answer (control_latch w)
        else None
  | Store addr v =>
      let entry := log w ++ [Wr (now w) addr v] in
      if addr =? tx_addr then Some (tt, World (now w) v (control_latch w) entry)
      else if addr =? control_addr then Some (tt, World (now w) (tx_latch w) v entry)
      else if (addr =? rx_addr) || (addr =? status_addr)
      then Some (tt, World (now w) (tx_latch w) (control_latch w) entry)
      else None
  | Trap => None
  end.

(** How a run stands when it stops: the program returned (with the fuel
    it did not use), it is still running when the fuel ran out, or it hit
    an access without an answer. *)
Inductive outcome (R : Type) :=
| Returned (r : R) (w : world) (left : nat)
| Running (w : world)
| Faulted (w : world).

Arguments Returned {R} r w left.
Arguments Running {R} w.
Arguments Faulted {R} w.

Definition world_of {R : Type} (o : outcome R) : world :=
  match o with
  | Returned _ w _ => w
  | Running w => w
  | Faulted w => w
  end.

(** Every event and every silent step (a loop going round) costs one
    unit of fuel; returning costs none. *)
Fixpoint run (d : device) {R : Type} (fuel : nat) (t : itree uartE R) (w : world)
  : outcome R :=
  match observe t with
  | RetF r => Returned r w fuel
  | TauF t' =>
      match fuel with
      | O => Running w
      | S n => run d n t' w
      end
  | VisF e k =>
      match fuel with
      | O => Running w
      | S n =>
          match handle d e w with
          | Some (x, w') => run d n (k x) w'
          | None => Faulted w
          end
      end
  end.

(** The stores among a list of accesses, as (address, word) pairs. *)
Definition writes (l : list access) : list (Z * Z) :=
  flat_map (fun a => match a with
                     | Wr _ addr v => [(addr, v)]
                     | Rd _ _ _ => []
                     end) l.

(** The accesses of a run that were not there when it started. *)
Definition fresh (w0 w : world) : list access :=
  skipn (length (log w0)) (log w).

(** ** Vocabulary of the statements *)

(** The world after one more poll of the status register. *)
Definition poll (d : device) (w : world) : world :=
  World (S (now w)) (tx_latch w) (control_latch w)
        (log w ++ [Rd (S (now w)) status_addr (status_word (d (S (now w))))]).

(** The world after [k] more polls. *)
Fixpoint polled (d : device) (k : nat) (w : world) : world :=
  match k with
  | O => w
  | S k' => polled d k' (poll d w)
  end.

(** The loads of the status word at the [k] steps after step [t]. *)
Definition polls (d : device) (t k : nat) : list access :=
  map (fun s => Rd s status_addr (status_word (d s))) (seq (S t) k).

(** A busy-wait [while (test(uart->f));] on a status flag, and whether
    the device makes it go round at step [s]. *)
Definition wait_loop (f : field) (test : Z -> bool) : itree uartE unit :=
  while (v <- read_member uartlite f ;; Ret (test v)) (Ret tt).

Definition waits (d : device) (f : field) (test : Z -> bool) (s : nat) : bool :=
  test (get_field f (status_word (d s))).

(** The status flags the two blocking calls look at. *)
Definition tx_is_full (d : device) (s : nat) : bool := waits d tx_full truthy s.
Definition rx_is_valid (d : device) (s : nat) : bool := waits d rx_valid truthy s.

(** The world after a store to the transmit data word, and after a load
    of the receive data word. *)
Definition stored_tx (v : Z) (w : world) : world :=
  World (now w) v (control_latch w) (log w ++ [Wr (now w) tx_addr v]).

Definition loaded_rx (d : device) (w : world) : world :=
  World (now w) (tx_latch w) (control_latch w)
        (log w ++ [Rd (now w) rx_addr (rx_word (d (now w)))]).

(** The world after assigning [v] to a bit-field of the control word:
    a load of the word, then a store of the word with the field replaced. *)
Definition updated_control (f : field) (v : Z) (w : world) : world :=
  World (now w) (tx_latch w) (set_field f (control_latch w) v)
        (log w ++ [Rd (now w) control_addr (control_latch w);
                   Wr (now w) control_addr (set_field f (control_latch w) v)]).

(** The world after [reset_uartlite]. *)
Definition after_reset (w : world) : world :=
  updated_control intr_enable 0
    (updated_control rx_reset 1 (updated_control tx_reset 1 w)).

(** The world after one poll that found room and the store of [c]. *)
Definition send (char_signed : bool) (d : device) (c : ascii) (w : world) : world :=
  stored_tx (u32_of_char char_signed c) (poll d w).

Fixpoint sent (char_signed : bool) (d : device) (body : list ascii) (w : world)
  : world :=
  match body with
  | [] => w
  | c :: rest => sent char_signed d rest (send char_signed d c w)
  end.

(** The three stores of a reset that starts from control word [c0]. *)
Definition reset_words (c0 : Z) : list Z :=
  let c1 := set_field tx_reset c0 1 in
  let c2 := set_field rx_reset c1 1 in
  [c1; c2; set_field intr_enable c2 0].

(** The greeting, without its terminator. *)
Definition greeting : list ascii :=
  ["H"; "e"; "l"; "l"; "o"; ","; " "; "W"; "o"; "r"; "l"; "d"; "!"; "013"; "010"]%char.

(** The world after [k] rounds of the greeting. *)
Fixpoint greeted (char_signed : bool) (d : device) (k : nat) (w : world) : world :=
  match k with
  | O => w
  | S k' => greeted char_signed d k' (sent char_signed d greeting w)
  end.

(** The stores [puts_uartlite] makes for the characters [body]. *)
Definition tx_writes (char_signed : bool) (body : list ascii) : list (Z * Z) :=
  map (fun c => (tx_addr, u32_of_char char_signed c)) body.

(** The stores of [main] up to the end of its [k]-th greeting: the reset
    of a control word [c0], then [k] times the bytes of the greeting. *)
Definition main_writes (c0 : Z) (k : nat) : list (Z * Z) :=
  map (pair control_addr) (reset_words c0) ++
  concat (repeat (map (fun c => (tx_addr, byte_of c)) greeting) k).

(** [l1] is an initial segment of [l2]. *)
Definition initial {A : Type} (l1 l2 : list A) : Prop :=
  exists rest, l2 = l1 ++ rest.

(** The five entry points, called on the block at [uartlite], and what
    they hand back. *)
Inductive call :=
| CallReset
| CallPutc (c : ascii)
| CallGetc
| CallPuts (str : list ascii)
| CallMain.

Inductive value :=
| NoValue
| CharValue (c : ascii)
| IntValue (z : Z).

Definition invoke (char_signed : bool) (c : call) : itree uartE value :=
  match c with
  | CallReset => reset_uartlite uartlite ;; Ret NoValue
  | CallPutc ch => putc_uartlite char_signed uartlite ch ;; Ret NoValue
  | CallGetc => ch <- getc_uartlite uartlite ;; Ret (CharValue ch)
  | CallPuts str => puts_uartlite char_signed uartlite str ;; Ret NoValue
  | CallMain => z <- main char_signed ;; Ret (IntValue z)
  end.

(** The accesses the register map allows: loads of the receive data,
    status and control words, stores to the transmit data and control
    words. *)
Definition allowed (a : access) : bool :=
  match a with
  | Rd _ addr _ => (addr =? rx_addr) || (addr =? status_addr) || (addr =? control_addr)
  | Wr _ addr _ => (addr =? tx_addr) || (addr =? control_addr)
  end.

(** A program whose every access, on every run, satisfies [P]. *)
Definition confined {R : Type} (P : access -> bool) (t : itree uartE R) : Prop :=
  forall d n w, exists new,
    log (world_of (run d n t w)) = log w ++ new /\ forallb P new = true.

(** An event whose access satisfies [P] whenever and whatever it answers. *)
Definition event_ok (P : access -> bool) {X : Type} (e : uartE X) : Prop :=
  match e with
  | Load addr => forall s v, P (Rd s addr v) = true
  | Store addr v => forall s, P (Wr s addr v) = true
  | Trap => True
  end.

(** The bits a field occupies in its word. *)
Definition mask (f : field) : Z := Z.shiftl (Z.ones (f_width f)) (f_lsb f).

Definition error_flags : Z := Z.lor (mask overrun) (Z.lor (mask frame) (mask parity)).

(** Two devices that agree on everything but the three error flags. *)
Definition same_but_errors (d1 d2 : device) : Prop :=
  forall t, rx_word (d1 t) = rx_word (d2 t) /\
            Z.ldiff (status_word (d1 t)) error_flags =
            Z.ldiff (status_word (d2 t)) error_flags.

(** Two worlds a bus monitor that only sees stores cannot tell apart. *)
Definition alike (w1 w2 : world) : Prop :=
  now w1 = now w2 /\ tx_latch w1 = tx_latch w2 /\
  control_latch w1 = control_latch w2 /\
  writes (log w1) = writes (log w2).

(** Two runs that stopped the same way, with related results, in worlds
    that are [alike]. *)
Definition matching {R1 R2 : Type} (RR : R1 -> R2 -> Prop)
  (o1 : outcome R1) (o2 : outcome R2) : Prop :=
  match o1, o2 with
  | Returned r1 w1 m1, Returned r2 w2 m2 => RR r1 r2 /\ alike w1 w2 /\ m1 = m2
  | Running w1, Running w2 => alike w1 w2
  | Faulted w1, Faulted w2 => alike w1 w2
  | _, _ => False
  end.

(** How far the answers of two such devices to one event may differ:
    status words up to the error flags, nothing else. *)
Definition agree {X : Type} (e : uartE X) : X -> X -> Prop :=
  match e in uartE X return X -> X -> Prop with
  | Load addr =>
      if addr =? status_addr
      then fun v1 v2 => Z.ldiff v1 error_flags = Z.ldiff v2 error_flags
      else eq
  | Store _ _ => eq
  | Trap => eq
  end.

(** [t1] against [d1] and [t2] against [d2] run in lockstep from worlds
    that are alike. *)
Definition simulates (d1 d2 : device) {R1 R2 : Type} (RR : R1 -> R2 -> Prop)
  (t1 : itree uartE R1) (t2 : itree uartE R2) : Prop :=
  forall n w1 w2, alike w1 w2 -> matching RR (run d1 n t1 w1) (run d2 n t2 w2).

(** ** Sample devices and worlds *)

(** Transmitter always empty, nothing received. *)
Definition idle : device := fun _ => Snapshot 0 4.

(** Transmitter full and receiver empty for three steps; from the fourth
    on there is room and a received word whose upper bits are not zero. *)
Definition slow : device :=
  fun t => if (t <=? 3)%nat then Snapshot 0 8 else Snapshot 0xABCDEF41 5.

(** [slow] with the three error flags raised. *)
Definition noisy : device :=
  fun t => if (t <=? 3)%nat then Snapshot 0 0xE8 else Snapshot 0xABCDEF41 0xE5.

(** Transmitter full forever, receiver empty forever. *)
Definition stuck : device := fun _ => Snapshot 0 8.

Definition power_on : world := World 0 0 0 [].

(** ** Further vocabulary: any device, not only one with room *)

(** The transmitter has room again and again: after every step there is
    a later one with transmit-full clear. *)
Definition room_recurs (d : device) : Prop :=
  forall t, exists s, (t < s)%nat /\ tx_is_full d s = false.

(** Every store to the transmit data word in [l] happened at a step
    where the transmitter had room. *)
Definition tx_when_room (d : device) (l : list access) : Prop :=
  forall s v, In (Wr s tx_addr v) l -> tx_is_full d s = false.

(** Accesses that are loads, and accesses away from the control word. *)
Definition is_load (a : access) : bool :=
  match a with
  | Rd _ _ _ => true
  | Wr _ _ _ => false
  end.

Definition off_control (a : access) : bool :=
  match a with
  | Rd _ addr _ => negb (addr =? control_addr)
  | Wr _ addr _ => negb (addr =? control_addr)
  end.

(** How far the answers of two devices to one event may differ when their
    status words are related by [SR] and their receive data words by
    [XR]. *)
Definition agree_by (SR XR : Z -> Z -> Prop) {X : Type} (e : uartE X)
  : X -> X -> Prop :=
  match e in uartE X return X -> X -> Prop with
  | Load addr =>
      if addr =? status_addr then SR
      else if addr =? rx_addr then XR
      else eq
  | Store _ _ => eq
  | Trap => eq
  end.

(** Two devices with the same transmit-full flag at every step, and two
    with the same receive-valid flag and the same low byte of the receive
    data word at every step. *)
Definition same_tx_full (d1 d2 : device) : Prop :=
  forall t, tx_is_full d1 t = tx_is_full d2 t.

Definition same_rx_side (d1 d2 : device) : Prop :=
  forall t, rx_is_valid d1 t = rx_is_valid d2 t /\
            rx_word (d1 t) mod 2 ^ 8 = rx_word (d2 t) mod 2 ^ 8.

(** The word [uart->tx_fifo = c] stores: a [char] of 128 or more is
    sign-extended where plain [char] is signed. *)
Definition tx_word (char_signed : bool) (c : ascii) : Z :=
  if char_signed && (128 <=? byte_of c) then 0xFFFFFF00 + byte_of c else byte_of c.

(** Room at the odd steps only; a received word at every step that has
    different upper and error bits from [slow]'s. *)
Definition blinking : device :=
  fun t => if Nat.even t then Snapshot 0x141 0xF9 else Snapshot 0x241 0x05.

(** [blinking] with every other status bit and the receive word changed. *)
Definition blinking' : device :=
  fun t => if Nat.even t then Snapshot 7 0x08 else Snapshot 9 0xF6.

(** Receive-valid and the low byte 0x41 at every step, like [blinking],
    with everything else different. *)
Definition blinking'' : device :=
  fun t => if Nat.even t then Snapshot 0xAB41 0x01 else Snapshot 0x41 0xFF.

(** A device that hands back the byte 0xFF sign-extended. *)
Definition echo : device := fun _ => Snapshot 0xFFFFFFFF 1.

(* ===================================================================== *)
(** ** Sample runs *)
(* ===================================================================== *)

Example hello_world_bytes :
  map byte_of hello_world =
  [72; 101; 108; 108; 111; 44; 32; 87; 111; 114; 108; 100; 33; 13; 10; 0].
Proof. reflexivity. Qed.

Example reset_from_power_on :
  run idle 6 (reset_uartlite uartlite) power_on =
  Returned tt
    (World 0 0 3 [Rd 0 control_addr 0; Wr 0 control_addr 1;
                  Rd 0 control_addr 1; Wr 0 control_addr 3;
                  Rd 0 control_addr 3; Wr 0 control_addr 3]) 0.
Proof. reflexivity. Qed.

Example reset_clears_interrupt_enable :
  control_latch (world_of (run idle 6 (reset_uartlite uartlite) (World 0 0 0xFFFFFFFF [])))
  = 0xFFFFFFEF.
Proof. reflexivity. Qed.

Example putc_on_slow :
  run slow 8 (putc_uartlite true uartlite "a") power_on =
  Returned tt
    (World 4 97 0 [Rd 1 status_addr 8; Rd 2 status_addr 8; Rd 3 status_addr 8;
                   Rd 4 status_addr 5; Wr 4 tx_addr 97]) 0.
Proof. reflexivity. Qed.

Example putc_on_stuck :
  run stuck 9 (putc_uartlite true uartlite "a") power_on =
  Running (World 5 0 0 [Rd 1 status_addr 8; Rd 2 status_addr 8; Rd 3 status_addr 8;
                        Rd 4 status_addr 8; Rd 5 status_addr 8]).
Proof. reflexivity. Qed.

Example putc_negative_char :
  world_of (run idle 2 (putc_uartlite true uartlite "255") power_on) =
  World 1 0xFFFFFFFF 0 [Rd 1 status_addr 4; Wr 1 tx_addr 0xFFFFFFFF] /\
  world_of (run idle 2 (putc_uartlite false uartlite "255") power_on) =
  World 1 0xFF 0 [Rd 1 status_addr 4; Wr 1 tx_addr 0xFF].
Proof. split; reflexivity. Qed.

Example getc_on_slow :
  run slow 8 (getc_uartlite uartlite) power_on =
  Returned "A"%char
    (World 4 0 0 [Rd 1 status_addr 8; Rd 2 status_addr 8; Rd 3 status_addr 8;
                  Rd 4 status_addr 5; Rd 4 rx_addr 0xABCDEF41]) 0.
Proof. reflexivity. Qed.

Example puts_without_terminator :
  run idle 7 (puts_uartlite true uartlite ["A"; "B"]%char) power_on =
  Faulted (World 2 66 0 [Rd 1 status_addr 4; Wr 1 tx_addr 65;
                         Rd 2 status_addr 4; Wr 2 tx_addr 66]).
Proof. reflexivity. Qed.

Example main_first_round :
  map snd (writes (log (world_of (run idle 52 (main true) power_on)))) =
  1 :: 3 :: 3 :: map byte_of greeting.
Proof. reflexivity. Qed.

(* ===================================================================== *)
(** ** Equations of [run] *)
(* ===================================================================== *)

Section RunFacts.

Variable d : device.

Lemma run_observe {R} (t1 t2 : itree uartE R) n w :
  observe t1 = observe t2 -> run d n t1 w = run d n t2 w.
Proof.
  intros H. destruct n; simpl; rewrite H; reflexivity.
Qed.

Lemma run_ret {R} (r : R) n w : run d n (Ret r) w = Returned r w n.
Proof. destruct n; reflexivity. Qed.


Lemma run_trigger {X} (e : uartE X) n w :
  run d (S n) (ITree.trigger e) w =
  match handle d e w with
  | Some (x, w') => Returned x w' n
  | None => Faulted w
  end.
Proof.
  simpl. destruct (handle d e w) as [[x w']|]; [apply run_ret | reflexivity].
Qed.

Lemma run_bind {R T} (t : itree uartE R) (k : R -> itree uartE T) n :
  forall w,
  run d n (ITree.bind t k) w =
  match run d n t w with
  | Returned r w' m => run d m (k r) w'
  | Running w' => Running w'
  | Faulted w' => Faulted w'
  end.
Proof.
  revert t. induction n as [|n IH]; intros t w.
  - rewrite (run_observe _ _ _ _ (observe_bind t k)).
    cbn [run]. destruct (observe t) as [r|t'|X e h]; reflexivity.
  - rewrite (run_observe _ _ _ _ (observe_bind t k)).
    cbn [run]. destruct (observe t) as [r|t'|X e h].
    + reflexivity.
    + apply IH.
    + cbn. destruct (handle d e w) as [[x w']|]; [apply IH | reflexivity].
Qed.

Lemma run_iter {I R} (step : I -> itree uartE (I + R)) i n w :
  run d n (ITree.iter step i) w =
  match run d n (step i) w with
  | Returned (inl i') w' (S m) => run d m (ITree.iter step i') w'
  | Returned (inl i') w' O => Running w'
  | Returned (inr r) w' m => Returned r w' m
  | Running w' => Running w'
  | Faulted w' => Faulted w'
  end.
Proof.
  rewrite (run_observe _ _ n w (observing_observe (unfold_aloop_ step i))).
  rewrite run_bind.
  destruct (run d n (step i) w) as [[i'|r] w' m|w'|w']; try reflexivity.
  - destruct m; reflexivity.
  - apply run_ret.
Qed.

Lemma run_forever {R T} (t : itree uartE R) n w :
  run d n (ITree.forever t : itree uartE T) w =
  match run d n t w with
  | Returned _ w' (S m) => run d m (ITree.forever t) w'
  | Returned _ w' O => Running w'
  | Running w' => Running w'
  | Faulted w' => Faulted w'
  end.
Proof.
  rewrite (run_observe _ _ n w (observing_observe (unfold_forever_ t))).
  rewrite run_bind.
  destruct (run d n t w) as [r w' m|w'|w']; try reflexivity.
  destruct m; reflexivity.
Qed.

(** A run never hands back more fuel than it was given. *)
Lemma run_left_le {R} n : forall (t : itree uartE R) w r w' m,
  run d n t w = Returned r w' m -> (m <= n)%nat.
Proof.
  induction n as [|n IH]; intros t w r w' m; cbn [run];
    destruct (observe t) as [r0|t'|X e h]; try discriminate.
  - intros [= _ _ <-]. lia.
  - intros [= _ _ <-]. lia.
  - intros H. apply IH in H. lia.
  - destruct (handle d e w) as [[x w1]|]; [|discriminate].
    intros H. apply IH in H. lia.
Qed.

Lemma run_at_ret {R} (t : itree uartE R) r n w :
  observe t = RetF r -> run d n t w = Returned r w n.
Proof.
  intros H. rewrite (run_observe t (Ret r)) by exact H. apply run_ret.
Qed.

(** More fuel does not change a run that returned or faulted. *)
Lemma run_more {R} j n : forall (t : itree uartE R) w,
  match run d n t w with
  | Returned r w' m => run d (n + j) t w = Returned r w' (m + j)
  | Running _ => True
  | Faulted w' => run d (n + j) t w = Faulted w'
  end.
Proof.
  induction n as [|n IH]; intros t w; cbn [run Nat.add];
    destruct (observe t) as [r0|t'|X e h] eqn:Ht; trivial.
  - apply run_at_ret, Ht.
  - apply IH.
  - destruct (handle d e w) as [[x w1]|]; [apply IH | reflexivity].
Qed.

End RunFacts.

(* ===================================================================== *)
(** ** Busy-waiting on a status flag *)
(* ===================================================================== *)

Section Waiting.

Variable d : device.
Variable f : field.
Variable test : Z -> bool.
Hypothesis status_flag : f_offset f = f_offset status.

Lemma run_read_status n w :
  run d n (read_member uartlite f) w =
  match n with
  | O => Running w
  | S m => Returned (get_field f (status_word (d (S (now w))))) (poll d w) m
  end.
Proof.
  unfold read_member, load. rewrite run_bind, status_flag.
  destruct n as [|m]; [reflexivity|].
  rewrite run_trigger. cbn. apply run_ret.
Qed.

Lemma run_wait_step n w :
  run d n (wait_loop f test) w =
  match n with
  | O => Running w
  | S m =>
      if waits d f test (S (now w)) then
        match m with
        | O => Running (poll d w)
        | S m' => run d m' (wait_loop f test) (poll d w)
        end
      else Returned tt (poll d w) m
  end.
Proof.
  unfold wait_loop, while.
  rewrite run_iter, !run_bind, run_read_status.
  destruct n as [|m]; [reflexivity|].
  rewrite run_ret. fold (waits d f test (S (now w))).
  destruct (waits d f test (S (now w))).
  - rewrite run_bind, !run_ret. reflexivity.
  - rewrite run_ret. reflexivity.
Qed.

Lemma polled_now k : forall w, now (polled d k w) = (now w + k)%nat.
Proof.
  induction k as [|k IH]; intros w; cbn [polled].
  - lia.
  - rewrite IH. cbn. lia.
Qed.


Lemma polled_log k : forall w,
  log (polled d k w) = log w ++ polls d (now w) k.
Proof.
  induction k as [|k IH]; intros w; cbn [polled].
  - unfold polls. cbn. now rewrite app_nil_r.
  - rewrite IH. unfold polls. cbn. now rewrite <- app_assoc.
Qed.


(** If the flag makes the loop wait at the next [k] steps and lets it go
    at the one after, the loop returns there, after [2k+1] units of fuel. *)
Lemma wait_returns k : forall w j,
  (forall i, (i < k)%nat -> waits d f test (S (now w + i)) = true) ->
  waits d f test (S (now w + k)) = false ->
  run d (2 * k + 1 + j) (wait_loop f test) w = Returned tt (polled d (S k) w) j.
Proof.
  induction k as [|k IH]; intros w j Hwait Hgo.
  - rewrite run_wait_step. cbn [Nat.mul Nat.add].
    rewrite Nat.add_0_r in Hgo. rewrite Hgo. reflexivity.
  - rewrite run_wait_step.
    replace (2 * S k + 1 + j)%nat with (S (S (2 * k + 1 + j))) by lia.
    rewrite <- (Nat.add_0_r (now w)), Hwait by lia.
    rewrite IH.
    + reflexivity.
    + intros i Hi. cbn [poll now].
      replace (S (S (now w) + i)) with (S (now w + S i)) by lia.
      apply Hwait. lia.
    + cbn [poll now].
      replace (S (S (now w) + k)) with (S (now w + S k)) by lia. exact Hgo.
Qed.

(** Whatever the fuel, the loop has only polled: it has seen the flag
    make it wait at every step but the last, and it has returned exactly
    when the last poll let it go. *)
Lemma wait_polls n : forall w,
  match run d n (wait_loop f test) w with
  | Returned _ w' m =>
      exists k, (2 * k + 1 + m = n)%nat /\
                (forall i, (i < k)%nat -> waits d f test (S (now w + i)) = true) /\
                waits d f test (S (now w + k)) = false /\
                w' = polled d (S k) w
  | Running w' =>
      exists k, (k <= n)%nat /\
                (forall i, (i < k)%nat -> waits d f test (S (now w + i)) = true) /\
                w' = polled d k w
  | Faulted _ => False
  end.
Proof.
  induction n as [n IH] using lt_wf_ind. intros w.
  rewrite run_wait_step. destruct n as [|m].
  - exists 0%nat. split; [lia|]. split; [intros; lia | reflexivity].
  - destruct (waits d f test (S (now w))) eqn:Hw.
    + assert (Hshift : forall k i, (i < S k)%nat ->
                (forall i', (i' < k)%nat -> waits d f test (S (now (poll d w) + i')) = true) ->
                waits d f test (S (now w + i)) = true).
      { intros k i Hi Hk. destruct i as [|i].
        - now rewrite Nat.add_0_r.
        - specialize (Hk i ltac:(lia)). cbn [poll now] in Hk.
          now replace (now w + S i)%nat with (S (now w) + i)%nat by lia. }
      destruct m as [|m'].
      * exists 1%nat. split; [lia|]. split; [|reflexivity].
        intros i Hi. apply (Hshift 0%nat i Hi). intros; lia.
      * specialize (IH m' ltac:(lia) (poll d w)).
        destruct (run d m' (wait_loop f test) (poll d w)) as [r w' m|w'|w'].
        -- destruct IH as (k & Hfuel & Hwait & Hgo & ->).
           exists (S k). split; [lia|]. split; [|split; [|reflexivity]].
           ++ intros i Hi. apply (Hshift k i Hi Hwait).
           ++ cbn [poll now] in Hgo.
              now replace (now w + S k)%nat with (S (now w) + k)%nat by lia.
        -- destruct IH as (k & Hfuel & Hwait & ->).
           exists (S k). split; [lia|]. split; [|reflexivity].
           intros i Hi. apply (Hshift k i Hi Hwait).
        -- exact IH.
    + exists 0%nat. split; [lia|]. split; [intros; lia|].
      split; [|reflexivity]. now rewrite Nat.add_0_r.
Qed.

End Waiting.

(* ===================================================================== *)
(** ** Characters and words *)
(* ===================================================================== *)

Lemma byte_of_range c : 0 <= byte_of c < 256.
Proof.
  unfold byte_of. pose proof (N_ascii_bounded c). lia.
Qed.

Lemma byte_of_char_of_u32 v : byte_of (char_of_u32 v) = v mod 2 ^ 8.
Proof.
  unfold byte_of, char_of_u32.
  assert (H : 0 <= v mod 2 ^ 8 < 256) by (apply Z.mod_pos_bound; lia).
  rewrite N_ascii_embedding by lia. lia.
Qed.

Lemma u32_of_char_low cs c : u32_of_char cs c mod 2 ^ 8 = byte_of c.
Proof.
  unfold u32_of_char, u32, char_value.
  pose proof (byte_of_range c) as Hb.
  change (2 ^ 32) with 4294967296. change (2 ^ 8) with 256.
  destruct (cs && (128 <=? byte_of c)) eqn:E.
  - apply andb_prop in E as [_ E%Z.leb_le].
    replace ((byte_of c - 256) mod 4294967296) with (byte_of c + 4294967040).
    + rewrite <- (Z.mod_small (byte_of c) 256) at 2 by lia.
      replace (byte_of c + 4294967040) with (byte_of c + 16777215 * 256) by lia.
      apply Z.mod_add. lia.
    + apply Z.mod_unique with (q := -1); lia.
  - rewrite (Z.mod_small (byte_of c)) by lia. apply Z.mod_small. lia.
Qed.

Lemma u32_of_char_ascii cs c : byte_of c < 128 -> u32_of_char cs c = byte_of c.
Proof.
  intros H. unfold u32_of_char, u32, char_value.
  pose proof (byte_of_range c) as Hb.
  replace (128 <=? byte_of c) with false by (symmetry; apply Z.leb_gt; lia).
  rewrite andb_false_r. apply Z.mod_small. change (2 ^ 32) with 4294967296. lia.
Qed.

Lemma truthy_char cs c : truthy (char_value cs c) = negb (byte_of c =? 0).
Proof.
  unfold truthy, char_value. pose proof (byte_of_range c) as Hb.
  destruct (cs && (128 <=? byte_of c)) eqn:E; [|reflexivity].
  apply andb_prop in E as [_ E%Z.leb_le].
  replace (byte_of c - 256 =? 0) with false by (symmetry; apply Z.eqb_neq; lia).
  replace (byte_of c =? 0) with false by (symmetry; apply Z.eqb_neq; lia).
  reflexivity.
Qed.

Lemma byte_of_NUL c : byte_of c = 0 <-> c = NUL.
Proof.
  split.
  - intros H. unfold byte_of in H.
    rewrite <- (ascii_N_embedding c). replace (N_of_ascii c) with 0%N by lia.
    reflexivity.
  - intros ->. reflexivity.
Qed.

Lemma fresh_app w w' new : log w' = log w ++ new -> fresh w w' = new.
Proof.
  intros H. unfold fresh. rewrite H.
  rewrite skipn_app, skipn_all, Nat.sub_diag. reflexivity.
Qed.

Lemma writes_app l1 l2 : writes (l1 ++ l2) = writes l1 ++ writes l2.
Proof. apply flat_map_app. Qed.


(* ===================================================================== *)
(** ** [putc_uartlite] and [getc_uartlite] *)
(* ===================================================================== *)

Section Blocking.

Variable char_signed : bool.
Variable d : device.

Lemma run_store_tx v m w :
  run d (S m) (write_member uartlite tx_fifo v) w =
  Returned tt (stored_tx (u32 v) w) m.
Proof.
  change (write_member uartlite tx_fifo v) with (ITree.trigger (Store tx_addr (u32 v))).
  rewrite run_trigger. reflexivity.
Qed.

Lemma run_load_rx m w :
  run d (S m) (read_member uartlite rx_fifo) w =
  Returned (get_field rx_fifo (rx_word (d (now w)))) (loaded_rx d w) m.
Proof.
  unfold read_member, load. rewrite run_bind.
  change (uartlite + f_offset rx_fifo) with rx_addr.
  rewrite run_trigger. cbn [handle].
  change (rx_addr =? status_addr) with false.
  change (rx_addr =? rx_addr) with true. cbn iota. apply run_ret.
Qed.

Lemma run_putc c n w :
  run d n (putc_uartlite char_signed uartlite c) w =
  match run d n (wait_loop tx_full truthy) w with
  | Returned _ w1 (S m) => Returned tt (stored_tx (u32_of_char char_signed c) w1) m
  | Returned _ w1 O => Running w1
  | Running w1 => Running w1
  | Faulted w1 => Faulted w1
  end.
Proof.
  unfold putc_uartlite. rewrite run_bind. fold (wait_loop tx_full truthy).
  destruct (run d n (wait_loop tx_full truthy) w) as [[] w1 [|m]|w1|w1];
    try reflexivity.
  apply run_store_tx.
Qed.

(** The whole receive word is the field [rx_fifo]; the cast keeps its low
    eight bits. *)
Lemma char_of_rx_field v : char_of_u32 (get_field rx_fifo v) = char_of_u32 v.
Proof.
  unfold char_of_u32. f_equal. f_equal.
  unfold get_field. cbn [f_lsb f_width rx_fifo].
  rewrite Z.shiftr_0_r, Z.land_ones by lia.
  change (2 ^ 32) with (2 ^ 8 * 2 ^ 24).
  rewrite Z.rem_mul_r by lia.
  rewrite Z.mul_comm, Z.mod_add by lia. apply Z.mod_mod. lia.
Qed.

Lemma run_getc n w :
  run d n (getc_uartlite uartlite) w =
  match run d n (wait_loop rx_valid (fun v => negb (truthy v))) w with
  | Returned _ w1 (S m) =>
      Returned (char_of_u32 (rx_word (d (now w1)))) (loaded_rx d w1) m
  | Returned _ w1 O => Running w1
  | Running w1 => Running w1
  | Faulted w1 => Faulted w1
  end.
Proof.
  unfold getc_uartlite. rewrite run_bind.
  fold (wait_loop rx_valid (fun v => negb (truthy v))).
  destruct (run d n (wait_loop rx_valid (fun v => negb (truthy v))) w)
    as [[] w1 [|m]|w1|w1]; try reflexivity.
  rewrite run_bind, run_load_rx, run_ret, char_of_rx_field. reflexivity.
Qed.

End Blocking.

(** The least step at which a decidable condition stops holding. *)
Lemma first_false (P : nat -> bool) n :
  P n = false ->
  exists k, (k <= n)%nat /\ (forall i, (i < k)%nat -> P i = true) /\ P k = false.
Proof.
  induction n as [n IH] using lt_wf_ind. intros Hn.
  destruct (forallb P (seq 0 n)) eqn:E.
  - exists n. split; [lia|]. split; [|exact Hn].
    intros i Hi. rewrite forallb_forall in E. apply E, in_seq. lia.
  - assert (Hex : exists m, (m < n)%nat /\ P m = false).
    { clear IH Hn. induction n as [|n IHn]; [discriminate|].
      rewrite seq_S, forallb_app in E. cbn in E.
      destruct (forallb P (seq 0 n)).
      - exists n. split; [lia|]. rewrite andb_true_r in E.
        destruct (P n); [discriminate | reflexivity].
      - destruct (IHn eq_refl) as (m & Hm & Pm). exists m. split; [lia | exact Pm]. }
    destruct Hex as (m & Hm & Pm).
    destruct (IH m Hm Pm) as (k & Hk & Hall & Pk).
    exists k. split; [lia|]. split; assumption.
Qed.

Lemma first_go (P : nat -> bool) t s :
  (t < s)%nat -> P s = false ->
  exists k, (forall i, (i < k)%nat -> P (S (t + i)) = true) /\ P (S (t + k)) = false.
Proof.
  intros Hts Hs.
  destruct (first_false (fun i => P (S (t + i))) (s - S t)) as (k & _ & Hall & Pk).
  - cbn beta. replace (S (t + (s - S t))) with s by lia. exact Hs.
  - exists k. split; assumption.
Qed.

Lemma status_offset_tx_full : f_offset tx_full = f_offset status.
Proof. reflexivity. Qed.

Lemma status_offset_rx_valid : f_offset rx_valid = f_offset status.
Proof. reflexivity. Qed.

Lemma no_store_in_polls d t k s addr v : ~ In (Wr s addr v) (polls d t k).
Proof.
  unfold polls. rewrite in_map_iff. intros (x & Hx & _). discriminate.
Qed.

(** What a returned [putc_uartlite] has done. *)
Lemma putc_returned cs d c w fuel w' left :
  run d fuel (putc_uartlite cs uartlite c) w = Returned tt w' left ->
  exists k,
    (forall i, (i < k)%nat -> tx_is_full d (S (now w + i)) = true) /\
    tx_is_full d (S (now w + k)) = false /\
    fresh w w' = polls d (now w) (S k) ++
                 [Wr (S (now w + k)) tx_addr (u32_of_char cs c)].
Proof.
  rewrite run_putc.
  pose proof (wait_polls d tx_full truthy status_offset_tx_full fuel w) as Hw.
  destruct (run d fuel (wait_loop tx_full truthy) w) as [r w1 [|m]|w1|w1];
    try discriminate.
  destruct Hw as (k & _ & Hwait & Hgo & ->). intros [= <- <-].
  exists k. split; [exact Hwait|]. split; [exact Hgo|].
  apply fresh_app. unfold stored_tx. cbn [log].
  change (polled d k (poll d w)) with (polled d (S k) w).
  rewrite polled_log, polled_now, <- app_assoc, Nat.add_succ_r. reflexivity.
Qed.

(** While it has not returned it has only polled. *)
Lemma putc_running cs d c w fuel w' :
  run d fuel (putc_uartlite cs uartlite c) w = Running w' ->
  exists k, fresh w w' = polls d (now w) k.
Proof.
  rewrite run_putc.
  pose proof (wait_polls d tx_full truthy status_offset_tx_full fuel w) as Hw.
  destruct (run d fuel (wait_loop tx_full truthy) w) as [r w1 [|m]|w1|w1];
    try discriminate; intros [= <-].
  - destruct Hw as (k & _ & _ & _ & ->). exists (S k).
    apply fresh_app, polled_log.
  - destruct Hw as (k & _ & _ & ->). exists k. apply fresh_app, polled_log.
Qed.

Lemma putc_no_fault cs d c w fuel w' :
  run d fuel (putc_uartlite cs uartlite c) w <> Faulted w'.
Proof.
  rewrite run_putc.
  pose proof (wait_polls d tx_full truthy status_offset_tx_full fuel w) as Hw.
  destruct (run d fuel (wait_loop tx_full truthy) w) as [r w1 [|m]|w1|w1];
    try discriminate; contradiction.
Qed.

(** It returns at the first step with room, after [2k+2] units of fuel. *)
Lemma putc_returns cs d c w k j :
  (forall i, (i < k)%nat -> tx_is_full d (S (now w + i)) = true) ->
  tx_is_full d (S (now w + k)) = false ->
  run d (2 * k + 1 + S j) (putc_uartlite cs uartlite c) w =
  Returned tt (stored_tx (u32_of_char cs c) (polled d (S k) w)) j.
Proof.
  intros Hwait Hgo. rewrite run_putc.
  rewrite (wait_returns d tx_full truthy status_offset_tx_full k w (S j) Hwait Hgo).
  reflexivity.
Qed.

Lemma waits_rx_empty d s :
  waits d rx_valid (fun v => negb (truthy v)) s = negb (rx_is_valid d s).
Proof. reflexivity. Qed.

(** What a returned [getc_uartlite] has done. *)
Lemma getc_returned d w fuel ch w' left :
  run d fuel (getc_uartlite uartlite) w = Returned ch w' left ->
  exists k,
    (forall i, (i < k)%nat -> rx_is_valid d (S (now w + i)) = false) /\
    rx_is_valid d (S (now w + k)) = true /\
    now w' = S (now w + k) /\
    ch = char_of_u32 (rx_word (d (S (now w + k)))) /\
    fresh w w' = polls d (now w) (S k) ++
                 [Rd (S (now w + k)) rx_addr (rx_word (d (S (now w + k))))].
Proof.
  rewrite run_getc.
  pose proof (wait_polls d rx_valid (fun v => negb (truthy v))
                status_offset_rx_valid fuel w) as Hw.
  destruct (run d fuel (wait_loop rx_valid (fun v => negb (truthy v))) w)
    as [r w1 [|m]|w1|w1]; try discriminate.
  destruct Hw as (k & _ & Hwait & Hgo & ->). intros [= <- <-].
  change (polled d k (poll d w)) with (polled d (S k) w).
  assert (Hnow : now (polled d (S k) w) = S (now w + k))
    by (rewrite polled_now; lia).
  exists k. split; [|split; [|split; [|split]]].
  - intros i Hi. specialize (Hwait i Hi). rewrite waits_rx_empty in Hwait.
    now destruct (rx_is_valid d (S (now w + i))).
  - rewrite waits_rx_empty in Hgo. now destruct (rx_is_valid d (S (now w + k))).
  - exact Hnow.
  - now rewrite Hnow.
  - apply fresh_app. unfold loaded_rx. cbn [log].
    rewrite polled_log, Hnow, <- app_assoc. reflexivity.
Qed.

Lemma getc_no_fault d w fuel w' :
  run d fuel (getc_uartlite uartlite) w <> Faulted w'.
Proof.
  rewrite run_getc.
  pose proof (wait_polls d rx_valid (fun v => negb (truthy v))
                status_offset_rx_valid fuel w) as Hw.
  destruct (run d fuel (wait_loop rx_valid (fun v => negb (truthy v))) w)
    as [r w1 [|m]|w1|w1]; try discriminate; contradiction.
Qed.

Lemma getc_returns d w k j :
  (forall i, (i < k)%nat -> rx_is_valid d (S (now w + i)) = false) ->
  rx_is_valid d (S (now w + k)) = true ->
  run d (2 * k + 1 + S j) (getc_uartlite uartlite) w =
  Returned (char_of_u32 (rx_word (d (S (now w + k)))))
           (loaded_rx d (polled d (S k) w)) j.
Proof.
  intros Hwait Hgo. rewrite run_getc.
  rewrite (wait_returns d rx_valid (fun v => negb (truthy v))
             status_offset_rx_valid k w (S j)).
  - rewrite polled_now, Nat.add_succ_r. reflexivity.
  - intros i Hi. rewrite waits_rx_empty, Hwait by exact Hi. reflexivity.
  - rewrite waits_rx_empty, Hgo. reflexivity.
Qed.

(* ===================================================================== *)
(** ** The blocking calls: what the specification says of them *)
(* ===================================================================== *)

(** C2. For every device trace and every character [c],
    [putc_uartlite] stores nothing at a step where the transmit-full flag
    is set (whatever the fuel, so also on traces where it never returns);
    when it returns it has polled the status word at each step up to the
    first one with the flag clear and then made exactly one store, of [c]
    to the transmit data word, at that step; and it does return as soon
    as the flag is found clear.  The word stored is [c] converted to
    [uint32_t]: its low byte is [c], and it is [c] itself for every
    character below 128. *)
Theorem putc_waits_then_stores_once
  (char_signed : bool) (d : device) (c : ascii) (w : world) :
  (forall fuel s addr v,
     In (Wr s addr v)
        (fresh w (world_of (run d fuel (putc_uartlite char_signed uartlite c) w))) ->
     tx_is_full d s = false /\ addr = tx_addr /\ v = u32_of_char char_signed c) /\
  (forall fuel w' left,
     run d fuel (putc_uartlite char_signed uartlite c) w = Returned tt w' left ->
     exists k,
       (forall i, (i < k)%nat -> tx_is_full d (S (now w + i)) = true) /\
       tx_is_full d (S (now w + k)) = false /\
       fresh w w' = polls d (now w) (S k) ++
                    [Wr (S (now w + k)) tx_addr (u32_of_char char_signed c)]) /\
  (forall k,
     (forall i, (i < k)%nat -> tx_is_full d (S (now w + i)) = true) ->
     tx_is_full d (S (now w + k)) = false ->
     exists fuel w',
       run d fuel (putc_uartlite char_signed uartlite c) w = Returned tt w' O) /\
  u32_of_char char_signed c mod 2 ^ 8 = byte_of c /\
  (byte_of c < 128 -> u32_of_char char_signed c = byte_of c).
Proof.
  split; [|split; [apply putc_returned|split;
    [|split; [apply u32_of_char_low | apply u32_of_char_ascii]]]].
  - intros fuel s addr v.
    destruct (run d fuel (putc_uartlite char_signed uartlite c) w)
      as [[] w' left|w'|w'] eqn:E; cbn [world_of].
    + destruct (putc_returned _ _ _ _ _ _ _ E) as (k & _ & Hgo & ->).
      rewrite in_app_iff. intros [H|[[= <- <- <-]|[]]].
      * now apply no_store_in_polls in H.
      * auto.
    + destruct (putc_running _ _ _ _ _ _ E) as (k & ->).
      intros H. now apply no_store_in_polls in H.
    + now apply putc_no_fault in E.
  - intros k Hwait Hgo. exists (2 * k + 1 + 1)%nat. eexists.
    apply putc_returns; assumption.
Qed.

(** The call on [slow], from power-on: three polls that find the
    transmitter full, a fourth that finds room, then the one store. *)
Lemma putc_waits_then_stores_once_witness :
  exists fuel w',
    run slow fuel (putc_uartlite true uartlite "a") power_on = Returned tt w' O.
Proof.
  apply (proj1 (proj2 (proj2
           (putc_waits_then_stores_once true slow "a" power_on))) 3%nat).
  - intros i Hi. destruct i as [|[|[|i]]]; [reflexivity..|lia].
  - reflexivity.
Defined.

(** C3. For every device trace, [getc_uartlite] returns only after a
    poll has found receive-valid set: when it returns it has seen the flag
    clear at every earlier step, its only load of the receive data word is
    at the first step where the flag is set, and the character returned
    is the byte in the receive data word at that step.  It does return as
    soon as the flag is found set. *)
Theorem getc_returns_byte_at_first_valid (d : device) (w : world) :
  (forall fuel ch w' left,
     run d fuel (getc_uartlite uartlite) w = Returned ch w' left ->
     exists k,
       (forall i, (i < k)%nat -> rx_is_valid d (S (now w + i)) = false) /\
       rx_is_valid d (S (now w + k)) = true /\
       byte_of ch = rx_word (d (S (now w + k))) mod 2 ^ 8 /\
       fresh w w' = polls d (now w) (S k) ++
                    [Rd (S (now w + k)) rx_addr (rx_word (d (S (now w + k))))]) /\
  (forall k,
     (forall i, (i < k)%nat -> rx_is_valid d (S (now w + i)) = false) ->
     rx_is_valid d (S (now w + k)) = true ->
     exists fuel w',
       run d fuel (getc_uartlite uartlite) w =
       Returned (char_of_u32 (rx_word (d (S (now w + k))))) w' O).
Proof.
  split.
  - intros fuel ch w' left E.
    destruct (getc_returned _ _ _ _ _ _ E) as (k & Hwait & Hgo & _ & -> & Hlog).
    exists k. rewrite byte_of_char_of_u32. auto.
  - intros k Hwait Hgo. exists (2 * k + 1 + 1)%nat. eexists.
    apply getc_returns; assumption.
Qed.

(** On [slow] the receiver is empty for three steps; the fourth poll
    finds a word and the call returns its low byte, ['A']. *)
Lemma getc_returns_byte_at_first_valid_witness :
  exists fuel w',
    run slow fuel (getc_uartlite uartlite) power_on = Returned "A"%char w' O.
Proof.
  apply (proj2 (getc_returns_byte_at_first_valid slow power_on) 3%nat).
  - intros i Hi. destruct i as [|[|[|i]]]; [reflexivity..|lia].
  - reflexivity.
Defined.

(** C10. Whatever the device trace and the receive data word, the
    character [getc_uartlite] returns is the word's low eight bits: its
    byte is the word modulo 2^8, and as a [char] it stands for that byte
    read as signed or unsigned, as the target has it. *)
Theorem getc_keeps_low_byte
  (char_signed : bool) (d : device) (w : world) fuel ch w' left :
  run d fuel (getc_uartlite uartlite) w = Returned ch w' left ->
  let word := rx_word (d (now w')) in
  byte_of ch = word mod 2 ^ 8 /\
  char_value char_signed ch =
    if char_signed && (128 <=? word mod 2 ^ 8)
    then word mod 2 ^ 8 - 256 else word mod 2 ^ 8.
Proof.
  intros E word.
  destruct (getc_returned _ _ _ _ _ _ E) as (k & _ & _ & Hnow & -> & _).
  subst word. rewrite Hnow. unfold char_value.
  rewrite byte_of_char_of_u32. split; reflexivity.
Qed.

(** The word 0xABCDEF41 comes back as the byte 0x41. *)
Lemma getc_keeps_low_byte_witness :
  byte_of "A" = 0xABCDEF41 mod 2 ^ 8 /\
  char_value true "A" = 0x41.
Proof.
  apply (getc_keeps_low_byte true slow power_on 8 "A"%char
           (loaded_rx slow (polled slow 4 power_on)) 0).
  reflexivity.
Defined.

(** C7. [putc_uartlite] returns, given enough fuel, exactly when the
    transmit-full flag is clear at some later step, and when the flag
    stays set for ever it is still running whatever the fuel; likewise
    [getc_uartlite] returns exactly when receive-valid is set at some
    later step, and keeps running when it never is. *)
Theorem blocking_calls_return_iff
  (char_signed : bool) (d : device) (c : ascii) (w : world) :
  ((exists fuel w' left,
      run d fuel (putc_uartlite char_signed uartlite c) w = Returned tt w' left)
   <-> (exists s, (now w < s)%nat /\ tx_is_full d s = false)) /\
  ((forall s, (now w < s)%nat -> tx_is_full d s = true) ->
   forall fuel, exists w',
     run d fuel (putc_uartlite char_signed uartlite c) w = Running w') /\
  ((exists fuel ch w' left,
      run d fuel (getc_uartlite uartlite) w = Returned ch w' left)
   <-> (exists s, (now w < s)%nat /\ rx_is_valid d s = true)) /\
  ((forall s, (now w < s)%nat -> rx_is_valid d s = false) ->
   forall fuel, exists w',
     run d fuel (getc_uartlite uartlite) w = Running w').
Proof.
  split; [|split; [|split]].
  - split.
    + intros (fuel & w' & left & E).
      destruct (putc_returned _ _ _ _ _ _ _ E) as (k & _ & Hgo & _).
      exists (S (now w + k)). split; [lia | exact Hgo].
    + intros (s & Hs & Hclear).
      destruct (first_go (tx_is_full d) (now w) s Hs Hclear) as (k & Hwait & Hgo).
      do 3 eexists. apply (putc_returns _ _ _ _ k 0 Hwait Hgo).
  - intros Hfull fuel.
    destruct (run d fuel (putc_uartlite char_signed uartlite c) w)
      as [[] w' left|w'|w'] eqn:E.
    + destruct (putc_returned _ _ _ _ _ _ _ E) as (k & _ & Hgo & _).
      rewrite Hfull in Hgo by lia. discriminate.
    + eauto.
    + now apply putc_no_fault in E.
  - split.
    + intros (fuel & ch & w' & left & E).
      destruct (getc_returned _ _ _ _ _ _ E) as (k & _ & Hgo & _).
      exists (S (now w + k)). split; [lia | exact Hgo].
    + intros (s & Hs & Hvalid).
      destruct (first_go (fun t => negb (rx_is_valid d t)) (now w) s Hs) as (k & Hwait & Hgo).
      { now rewrite Hvalid. }
      do 4 eexists. apply (getc_returns d w k 0).
      * intros i Hi. specialize (Hwait i Hi).
        now destruct (rx_is_valid d (S (now w + i))).
      * now destruct (rx_is_valid d (S (now w + k))).
  - intros Hempty fuel.
    destruct (run d fuel (getc_uartlite uartlite) w) as [ch w' left|w'|w'] eqn:E.
    + destruct (getc_returned _ _ _ _ _ _ E) as (k & _ & Hgo & _).
      rewrite Hempty in Hgo by lia. discriminate.
    + eauto.
    + now apply getc_no_fault in E.
Qed.

(** On [stuck] neither call ever returns. *)
Lemma blocking_calls_return_iff_witness :
  (forall fuel, exists w',
     run stuck fuel (putc_uartlite true uartlite "a") power_on = Running w') /\
  (forall fuel, exists w',
     run stuck fuel (getc_uartlite uartlite) power_on = Running w').
Proof.
  pose proof (blocking_calls_return_iff true stuck "a" power_on)
    as (_ & Hput & _ & Hget).
  split; [apply Hput | apply Hget]; intros s _; reflexivity.
Defined.

(* ===================================================================== *)
(** ** [reset_uartlite] *)
(* ===================================================================== *)

(** Bit [i] of a word after a bit-field assignment. *)
Lemma set_field_bit f word v i :
  0 <= f_lsb f -> 0 <= f_width f -> 0 <= i < 32 ->
  Z.testbit (set_field f word v) i =
  if (f_lsb f <=? i) && (i <? f_lsb f + f_width f)
  then Z.testbit v (i - f_lsb f) else Z.testbit word i.
Proof.
  intros Hl Hw Hi. unfold set_field, u32.
  rewrite Z.mod_pow2_bits_low by lia.
  rewrite Z.lor_spec, !Z.land_spec, Z.lnot_spec, !Z.shiftl_spec by lia.
  rewrite Z.land_spec, !Z.testbit_ones by lia.
  destruct (f_lsb f <=? i) eqn:E1; destruct (i <? f_lsb f + f_width f) eqn:E2;
    cbn [andb negb orb].
  - replace (0 <=? i - f_lsb f) with true by (symmetry; apply Z.leb_le; lia).
    replace (i - f_lsb f <? f_width f) with true by (symmetry; apply Z.ltb_lt; lia).
    cbn. now rewrite andb_false_r, andb_true_r.
  - replace (i - f_lsb f <? f_width f) with false by (symmetry; apply Z.ltb_ge; lia).
    now rewrite !andb_false_r, andb_true_r, orb_false_r.
  - replace (0 <=? i - f_lsb f) with false by (symmetry; apply Z.leb_gt; lia).
    cbn. now rewrite andb_false_r, andb_true_r, orb_false_r.
  - replace (0 <=? i - f_lsb f) with false by (symmetry; apply Z.leb_gt; lia).
    cbn. now rewrite andb_false_r, andb_true_r, orb_false_r.
Qed.

Section Resetting.

Variable d : device.

Lemma run_write_control f v m w :
  f_offset f = f_offset control -> (f_width f =? 32) = false ->
  run d (S (S m)) (write_member uartlite f v) w =
  Returned tt (updated_control f v w) m.
Proof.
  intros Hoff Hwidth. unfold write_member, load, store.
  rewrite Hwidth, Hoff, run_bind.
  change (uartlite + f_offset control) with control_addr.
  rewrite run_trigger.
  change (handle d (Load control_addr) w)
    with (Some (control_latch w,
                World (now w) (tx_latch w) (control_latch w)
                      (log w ++ [Rd (now w) control_addr (control_latch w)]))).
  cbn iota. rewrite run_trigger. unfold updated_control.
  cbn [handle now tx_latch control_latch log].
  change (control_addr =? tx_addr) with false.
  change (control_addr =? control_addr) with true. cbn iota.
  rewrite <- app_assoc. reflexivity.
Qed.

Lemma run_reset j w :
  run d (6 + j) (reset_uartlite uartlite) w = Returned tt (after_reset w) j.
Proof.
  unfold reset_uartlite.
  change (6 + j)%nat with (S (S (S (S (S (S j)))))).
  rewrite run_bind, run_write_control by reflexivity.
  rewrite run_bind, run_write_control by reflexivity.
  rewrite run_write_control by reflexivity. reflexivity.
Qed.

End Resetting.

Lemma reset_bits w i :
  0 <= i < 32 ->
  Z.testbit (control_latch (after_reset w)) i =
  if (i =? 0) || (i =? 1) then true
  else if i =? 4 then false
  else Z.testbit (control_latch w) i.
Proof.
  intros Hi. unfold after_reset, updated_control. cbn [control_latch].
  rewrite !set_field_bit by (cbn; lia). cbn [f_lsb f_width intr_enable rx_reset tx_reset].
  destruct (Z.eq_dec i 0) as [->|H0]; [reflexivity|].
  destruct (Z.eq_dec i 1) as [->|H1]; [reflexivity|].
  destruct (Z.eq_dec i 4) as [->|H4]; [reflexivity|].
  replace (i =? 0) with false by (symmetry; apply Z.eqb_neq; lia).
  replace (i =? 1) with false by (symmetry; apply Z.eqb_neq; lia).
  replace (i =? 4) with false by (symmetry; apply Z.eqb_neq; lia).
  cbn [orb].
  replace ((4 <=? i) && (i <? 4 + 1)) with false
    by (symmetry; apply andb_false_iff; lia).
  replace ((1 <=? i) && (i <? 1 + 1)) with false
    by (symmetry; apply andb_false_iff; lia).
  replace ((0 <=? i) && (i <? 0 + 1)) with false
    by (symmetry; apply andb_false_iff; lia).
  reflexivity.
Qed.

(** C5. From every world (so from every control word) and against every
    device, [reset_uartlite] returns, with no value, after its three
    bit-field assignments; the control word it leaves has bit 0
    (transmit reset) and bit 1 (receive reset) set and bit 4 (interrupt
    enable) clear, and every other bit as it was. *)
Theorem reset_sets_resets_clears_interrupt (d : device) (w : world) (j : nat) :
  exists w',
    run d (6 + j) (reset_uartlite uartlite) w = Returned tt w' j /\
    Z.testbit (control_latch w') 0 = true /\
    Z.testbit (control_latch w') 1 = true /\
    Z.testbit (control_latch w') 4 = false /\
    get_field tx_reset (control_latch w') = 1 /\
    get_field rx_reset (control_latch w') = 1 /\
    get_field intr_enable (control_latch w') = 0 /\
    (forall i, 0 <= i < 32 -> i <> 0 -> i <> 1 -> i <> 4 ->
       Z.testbit (control_latch w') i = Z.testbit (control_latch w) i) /\
    writes (fresh w w') = map (pair control_addr) (reset_words (control_latch w)) /\
    now w' = now w.
Proof.
  exists (after_reset w). split; [apply run_reset|].
  assert (H0 := reset_bits w 0 ltac:(lia)).
  assert (H1 := reset_bits w 1 ltac:(lia)).
  assert (H4 := reset_bits w 4 ltac:(lia)).
  cbn [Z.eqb orb] in H0, H1, H4.
  assert (Hbit : forall p, 0 <= p ->
            get_field (Field "" 12 p 1 false) (control_latch (after_reset w)) =
            Z.b2z (Z.testbit (control_latch (after_reset w)) p)).
  { intros p Hp. unfold get_field. cbn [f_lsb f_width].
    rewrite Z.land_ones by lia. change (2 ^ 1) with 2.
    rewrite <- Z.bit0_mod, Z.shiftr_spec by lia. reflexivity. }
  repeat split; try assumption.
  - change (get_field tx_reset) with (get_field (Field "" 12 0 1 false)).
    rewrite Hbit, H0 by lia. reflexivity.
  - change (get_field rx_reset) with (get_field (Field "" 12 1 1 false)).
    rewrite Hbit, H1 by lia. reflexivity.
  - change (get_field intr_enable) with (get_field (Field "" 12 4 1 false)).
    rewrite Hbit, H4 by lia. reflexivity.
  - intros i Hi Hn0 Hn1 Hn4. rewrite reset_bits by exact Hi.
    replace (i =? 0) with false by (symmetry; apply Z.eqb_neq; lia).
    replace (i =? 1) with false by (symmetry; apply Z.eqb_neq; lia).
    replace (i =? 4) with false by (symmetry; apply Z.eqb_neq; lia).
    reflexivity.
  - erewrite fresh_app.
    2:{ unfold after_reset, updated_control. cbn [log]. rewrite <- !app_assoc. reflexivity. }
    reflexivity.
Qed.

(* ===================================================================== *)
(** ** The log only grows *)
(* ===================================================================== *)

Lemma handle_log d {X} (e : uartE X) w x w' :
  handle d e w = Some (x, w') -> exists a, log w' = log w ++ [a].
Proof.
  destruct e as [addr|addr v|]; cbn [handle].
  - destruct (addr =? status_addr).
    + intros [= <- <-]. eexists. reflexivity.
    + destruct (addr =? rx_addr); [|destruct (addr =? tx_addr);
        [|destruct (addr =? control_addr); [|discriminate]]];
        intros [= <- <-]; eexists; reflexivity.
  - destruct (addr =? tx_addr); [|destruct (addr =? control_addr);
      [|destruct ((addr =? rx_addr) || (addr =? status_addr)); [|discriminate]]];
      intros [= <- <-]; eexists; reflexivity.
  - discriminate.
Qed.

Lemma run_log_grows d {R} n : forall (t : itree uartE R) w,
  exists new, log (world_of (run d n t w)) = log w ++ new.
Proof.
  induction n as [|n IH]; intros t w; cbn [run];
    destruct (observe t) as [r|t'|X e h];
    try (exists []; cbn [world_of]; now rewrite app_nil_r).
  - apply IH.
  - destruct (handle d e w) as [[x w1]|] eqn:E.
    + destruct (handle_log _ _ _ _ _ E) as (a & Ha).
      destruct (IH (h x) w1) as (new & Hnew).
      exists (a :: new). rewrite Hnew, Ha, <- app_assoc. reflexivity.
    + exists []. cbn [world_of]. now rewrite app_nil_r.
Qed.

Lemma run_log_mono d {R} j n : forall (t : itree uartE R) w,
  exists more,
    log (world_of (run d (n + j) t w)) = log (world_of (run d n t w)) ++ more.
Proof.
  induction n as [|n IH]; intros t w.
  - cbn [Nat.add]. destruct (observe t) as [r|t'|X e h] eqn:Ht.
    + rewrite !(run_at_ret d t r) by exact Ht. exists []. now rewrite app_nil_r.
    + replace (run d 0 t w) with (@Running R w) by (cbn [run]; now rewrite Ht).
      apply run_log_grows.
    + replace (run d 0 t w) with (@Running R w) by (cbn [run]; now rewrite Ht).
      apply run_log_grows.
  - cbn [Nat.add run]. destruct (observe t) as [r|t'|X e h].
    + exists []. now rewrite app_nil_r.
    + apply IH.
    + destruct (handle d e w) as [[x w1]|]; [apply IH|].
      exists []. now rewrite app_nil_r.
Qed.

(** [ITree.forever] never returns. *)
Lemma forever_never_returns d {R T} (t : itree uartE R) n :
  forall w (r : T) w' m, run d n (ITree.forever t) w <> Returned r w' m.
Proof.
  induction n as [n IH] using lt_wf_ind. intros w r w' m.
  rewrite run_forever.
  destruct (run d n t w) as [r1 w1 [|m1]|w1|w1] eqn:E; try discriminate.
  apply run_left_le in E. apply IH. lia.
Qed.

(* ===================================================================== *)
(** ** [puts_uartlite] and [main] *)
(* ===================================================================== *)

Lemma truthy_NUL cs : truthy (char_value cs NUL) = false.
Proof. destruct cs; reflexivity. Qed.

Lemma truthy_not_NUL cs c : c <> NUL -> truthy (char_value cs c) = true.
Proof.
  intros H. rewrite truthy_char.
  destruct (byte_of c =? 0) eqn:E; [|reflexivity].
  apply Z.eqb_eq, byte_of_NUL in E. contradiction.
Qed.

Lemma run_puts_empty cs d rest w fuel :
  run d fuel (puts_uartlite cs uartlite (NUL :: rest)) w = Returned tt w fuel.
Proof.
  unfold puts_uartlite, puts_loop. rewrite run_iter. cbn [nth_error].
  rewrite truthy_NUL, run_ret. reflexivity.
Qed.

Lemma sent_writes cs d body : forall w,
  exists new, log (sent cs d body w) = log w ++ new /\
              writes new = tx_writes cs body.
Proof.
  induction body as [|c body IH]; intros w; cbn [sent].
  - exists []. split; [now rewrite app_nil_r | reflexivity].
  - destruct (IH (send cs d c w)) as (new & Hlog & Hw).
    eexists. split.
    + rewrite Hlog. unfold send, stored_tx, poll. cbn [log].
      rewrite <- !app_assoc. reflexivity.
    + cbn [app]. cbn [writes flat_map]. cbn [app]. fold (writes new).
      rewrite Hw. reflexivity.
Qed.

Section Printing.

Variable char_signed : bool.
Variable d : device.
Hypothesis room : forall s, tx_is_full d s = false.

Lemma run_putc_room c j w :
  run d (2 + j) (putc_uartlite char_signed uartlite c) w =
  Returned tt (send char_signed d c w) j.
Proof.
  apply (putc_returns char_signed d c w 0 j).
  - intros i Hi. lia.
  - apply room.
Qed.

Lemma run_puts_loop body : forall pre rest w j,
  ~ In NUL body ->
  run d (3 * length body + j)
      (puts_loop char_signed uartlite (pre ++ body ++ NUL :: rest) (length pre)) w =
  Returned tt (sent char_signed d body w) j.
Proof.
  induction body as [|c body IH]; intros pre rest w j Hnul;
    unfold puts_loop; rewrite run_iter; cbn beta;
    rewrite nth_error_app2, Nat.sub_diag by lia; cbn [app nth_error].
  - rewrite truthy_NUL, run_ret. reflexivity.
  - rewrite truthy_not_NUL by (intros ->; apply Hnul; now left).
    replace (3 * length (c :: body) + j)%nat
      with (2 + S (3 * length body + j))%nat by (cbn [length]; lia).
    rewrite run_bind, run_putc_room, run_ret.
    specialize (IH (pre ++ [c]) rest (send char_signed d c w) j).
    rewrite <- app_assoc, length_app, Nat.add_1_r in IH. cbn [app] in IH.
    apply IH. intros H. apply Hnul. now right.
Qed.

Lemma run_puts body rest w j :
  ~ In NUL body ->
  run d (3 * length body + j)
      (puts_uartlite char_signed uartlite (body ++ NUL :: rest)) w =
  Returned tt (sent char_signed d body w) j.
Proof. apply (run_puts_loop body [] rest w j). Qed.

End Printing.

(** C4. Against a device that always reports room, and for every string
    [body] free of NUL followed by its terminator (and whatever lies
    behind it), [puts_uartlite] returns having made exactly one store per
    character of [body], each to the transmit data word, in the order of
    the string, and no other store: the terminator is not sent.  In
    particular ["AB"] gives exactly the two stores ['A'] then ['B']. *)
Theorem puts_stores_each_byte_in_order
  (char_signed : bool) (d : device) (body rest : list ascii) (w : world) :
  (forall s, tx_is_full d s = false) ->
  ~ In NUL body ->
  (exists w',
     run d (3 * length body) (puts_uartlite char_signed uartlite (body ++ NUL :: rest)) w
       = Returned tt w' O /\
     writes (fresh w w') = map (fun c => (tx_addr, u32_of_char char_signed c)) body) /\
  (exists w',
     run d 6 (puts_uartlite char_signed uartlite ["A"; "B"; NUL]%char) w
       = Returned tt w' O /\
     writes (fresh w w') = [(tx_addr, 65); (tx_addr, 66)]).
Proof.
  intros room Hnul. split.
  - exists (sent char_signed d body w). split.
    + rewrite <- (Nat.add_0_r (3 * length body)). now apply run_puts.
    + destruct (sent_writes char_signed d body w) as (new & Hlog & Hw).
      rewrite (fresh_app _ _ _ Hlog). exact Hw.
  - exists (sent char_signed d ["A"; "B"]%char w). split.
    + apply (run_puts char_signed d room ["A"; "B"]%char [] w 0).
      intros [H|[H|[]]]; discriminate.
    + destruct (sent_writes char_signed d ["A"; "B"]%char w) as (new & Hlog & Hw).
      rewrite (fresh_app _ _ _ Hlog), Hw. destruct char_signed; reflexivity.
Qed.

(** ["AB"] against [idle], from power-on. *)
Lemma puts_stores_each_byte_in_order_witness :
  exists w',
    run idle 6 (puts_uartlite true uartlite ["A"; "B"; NUL]%char) power_on
      = Returned tt w' O /\
    writes (fresh power_on w') = [(tx_addr, 65); (tx_addr, 66)].
Proof.
  apply (puts_stores_each_byte_in_order true idle ["A"; "B"]%char [] power_on).
  - intros s. reflexivity.
  - intros [H|[H|[]]]; discriminate.
Defined.

(** C9. On a string whose first character is the terminator,
    [puts_uartlite] returns at once: whatever the device, the world and
    the fuel, it returns with the fuel untouched and the world as it was,
    so with no access to any register. *)
Theorem puts_empty_string_touches_nothing
  (char_signed : bool) (d : device) (rest : list ascii) (w : world) (fuel : nat) :
  run d fuel (puts_uartlite char_signed uartlite (NUL :: rest)) w = Returned tt w fuel /\
  fresh w (world_of (run d fuel (puts_uartlite char_signed uartlite (NUL :: rest)) w)) = [].
Proof.
  rewrite run_puts_empty. split; [reflexivity|].
  apply fresh_app. cbn [world_of]. now rewrite app_nil_r.
Qed.

Lemma hello_world_greeting : hello_world = greeting ++ [NUL].
Proof. reflexivity. Qed.

Lemma greeting_no_NUL : ~ In NUL greeting.
Proof.
  unfold greeting. cbn [In]. intros H.
  repeat (destruct H as [H|H]; [discriminate|]). exact H.
Qed.

Lemma greeting_bytes cs :
  tx_writes cs greeting = map (fun c => (tx_addr, byte_of c)) greeting.
Proof. destruct cs; reflexivity. Qed.

Section Greeting.

Variable char_signed : bool.
Variable d : device.
Hypothesis room : forall s, tx_is_full d s = false.

Lemma run_round j w :
  run d (46 + j) (ITree.forever (puts_uartlite char_signed uartlite hello_world) : itree uartE Z) w =
  run d j (ITree.forever (puts_uartlite char_signed uartlite hello_world)) (sent char_signed d greeting w).
Proof.
  rewrite run_forever, hello_world_greeting.
  change (46 + j)%nat with (3 * length greeting + S j)%nat.
  rewrite (run_puts char_signed d room greeting [] w (S j) greeting_no_NUL).
  reflexivity.
Qed.

Lemma run_rounds k : forall j w,
  run d (46 * k + j) (ITree.forever (puts_uartlite char_signed uartlite hello_world) : itree uartE Z) w =
  run d j (ITree.forever (puts_uartlite char_signed uartlite hello_world)) (greeted char_signed d k w).
Proof.
  induction k as [|k IH]; intros j w.
  - reflexivity.
  - replace (46 * S k + j)%nat with (46 + (46 * k + j))%nat by lia.
    rewrite run_round, IH. reflexivity.
Qed.

Lemma run_round_start w :
  run d 0 (ITree.forever (puts_uartlite char_signed uartlite hello_world) : itree uartE Z) w =
  Running w.
Proof.
  rewrite run_forever.
  unfold puts_uartlite, puts_loop. rewrite run_iter. cbn [hello_world app nth_error list_ascii_of_string].
  rewrite truthy_not_NUL by discriminate.
  rewrite run_bind, run_putc, run_wait_step by reflexivity. reflexivity.
Qed.

Lemma run_main k w :
  run d (6 + 46 * k) (main char_signed) w =
  Running (greeted char_signed d k (after_reset w)).
Proof.
  unfold main. rewrite run_bind.
  rewrite (run_reset d (46 * k) w).
  rewrite <- (Nat.add_0_r (46 * k)), run_rounds. apply run_round_start.
Qed.

Lemma greeted_writes k : forall w,
  exists new, log (greeted char_signed d k w) = log w ++ new /\
              writes new =
              concat (repeat (map (fun c => (tx_addr, byte_of c)) greeting) k).
Proof.
  induction k as [|k IH]; intros w; cbn [greeted repeat concat].
  - exists []. split; [now rewrite app_nil_r | reflexivity].
  - destruct (sent_writes char_signed d greeting w) as (n1 & Hl1 & Hw1).
    destruct (IH (sent char_signed d greeting w)) as (n2 & Hl2 & Hw2).
    exists (n1 ++ n2). split.
    + rewrite Hl2, Hl1, app_assoc. reflexivity.
    + rewrite writes_app, Hw1, Hw2, greeting_bytes. reflexivity.
Qed.

Lemma main_writes_after k w :
  writes (fresh w (greeted char_signed d k (after_reset w))) =
  main_writes (control_latch w) k.
Proof.
  destruct (greeted_writes k (after_reset w)) as (new & Hlog & Hw).
  erewrite fresh_app.
  2:{ rewrite Hlog. unfold after_reset, updated_control. cbn [log].
      rewrite <- !app_assoc. reflexivity. }
  cbn [app]. unfold main_writes. rewrite <- Hw. reflexivity.
Qed.

End Greeting.

(** C1. Against every device that always reports room in the
    transmitter, and from every world, [main] never returns and never
    faults.  Its stores are the three of one reset of the control word,
    then the bytes H e l l o , SPACE W o r l d ! CR LF to the transmit
    data word, round after round: for every [k] the run reaches the end
    of the [k]-th round with exactly those stores, and at any fuel the
    stores made so far are an initial segment of that sequence. *)
Theorem main_resets_then_greets_forever
  (char_signed : bool) (d : device) (w : world) :
  (forall s, tx_is_full d s = false) ->
  (forall k, exists w',
     run d (6 + 46 * k) (main char_signed) w = Running w' /\
     writes (fresh w w') = main_writes (control_latch w) k) /\
  (forall fuel, exists w' k,
     run d fuel (main char_signed) w = Running w' /\
     initial (writes (fresh w w')) (main_writes (control_latch w) k)).
Proof.
  intros room. split.
  - intros k. exists (greeted char_signed d k (after_reset w)). split.
    + now apply run_main.
    + now apply main_writes_after.
  - intros fuel.
    pose proof (run_main char_signed d room fuel w) as Hfar.
    pose proof (run_more d (6 + 45 * fuel) fuel (main char_signed) w) as Hmore.
    pose proof (run_log_mono d (6 + 45 * fuel) fuel (main char_signed) w) as (more & Hlog).
    replace (fuel + (6 + 45 * fuel))%nat with (6 + 46 * fuel)%nat in * by lia.
    rewrite Hfar in Hlog. cbn [world_of] in Hlog.
    destruct (run d fuel (main char_signed) w) as [r w' m|w'|w'] eqn:E.
    + rewrite Hfar in Hmore. discriminate.
    + exists w', fuel. split; [reflexivity|]. cbn [world_of] in Hlog.
      destruct (run_log_grows d fuel (main char_signed) w) as (new & Hnew).
      rewrite E in Hnew. cbn [world_of] in Hnew.
      rewrite <- (main_writes_after char_signed d fuel w).
      rewrite (fresh_app _ _ _ Hnew).
      erewrite fresh_app by (rewrite Hlog, Hnew, <- app_assoc; reflexivity).
      exists (writes more). apply writes_app.
    + rewrite Hfar in Hmore. discriminate.
Qed.

(** [main] against [idle], from power-on. *)
Lemma main_resets_then_greets_forever_witness :
  (forall k, exists w',
     run idle (6 + 46 * k) (main true) power_on = Running w' /\
     writes (fresh power_on w') = main_writes 0 k) /\
  (forall fuel, exists w' k,
     run idle fuel (main true) power_on = Running w' /\
     initial (writes (fresh power_on w')) (main_writes 0 k)).
Proof.
  apply (main_resets_then_greets_forever true idle power_on).
  intros s. reflexivity.
Defined.

(* ===================================================================== *)
(** ** Which registers the driver touches *)
(* ===================================================================== *)

Section Confinement.

Variable P : access -> bool.

Lemma confined_ret {R} (r : R) : confined P (Ret r).
Proof.
  intros d n w. rewrite run_ret. exists []. now rewrite app_nil_r.
Qed.

Lemma handle_event_ok d {X} (e : uartE X) w x w' :
  event_ok P e -> handle d e w = Some (x, w') ->
  exists a, log w' = log w ++ [a] /\ P a = true.
Proof.
  destruct e as [addr|addr v|]; cbn [handle event_ok]; intros Hok.
  - destruct (addr =? status_addr).
    + intros [= <- <-]. eexists. split; [reflexivity | apply Hok].
    + destruct (addr =? rx_addr); [|destruct (addr =? tx_addr);
        [|destruct (addr =? control_addr); [|discriminate]]];
        intros [= <- <-]; eexists; (split; [reflexivity | apply Hok]).
  - destruct (addr =? tx_addr); [|destruct (addr =? control_addr);
      [|destruct ((addr =? rx_addr) || (addr =? status_addr)); [|discriminate]]];
      intros [= <- <-]; eexists; (split; [reflexivity | apply Hok]).
  - discriminate.
Qed.

Lemma confined_trigger {X} (e : uartE X) : event_ok P e -> confined P (ITree.trigger e).
Proof.
  intros Hok d n w. destruct n as [|n].
  - exists []. cbn. now rewrite app_nil_r.
  - rewrite run_trigger. destruct (handle d e w) as [[x w']|] eqn:E.
    + destruct (handle_event_ok _ _ _ _ _ Hok E) as (a & Hlog & Ha).
      exists [a]. cbn [world_of forallb]. now rewrite Ha.
    + exists []. cbn. now rewrite app_nil_r.
Qed.

Lemma confined_bind {R T} (t : itree uartE R) (k : R -> itree uartE T) :
  confined P t -> (forall r, confined P (k r)) -> confined P (ITree.bind t k).
Proof.
  intros Ht Hk d n w. rewrite run_bind. specialize (Ht d n w).
  destruct (run d n t w) as [r w' m|w'|w']; cbn [world_of] in *; try exact Ht.
  destruct Ht as (n1 & Hl1 & Hp1). destruct (Hk r d m w') as (n2 & Hl2 & Hp2).
  exists (n1 ++ n2). rewrite Hl2, Hl1, app_assoc, forallb_app, Hp1, Hp2. auto.
Qed.

Lemma confined_iter {I R} (step : I -> itree uartE (I + R)) :
  (forall i, confined P (step i)) -> forall i, confined P (ITree.iter step i).
Proof.
  intros Hstep i d n. revert i.
  induction n as [n IH] using lt_wf_ind. intros i w.
  rewrite run_iter. specialize (Hstep i d n w).
  destruct (run d n (step i) w) as [[i'|r] w' [|m]|w'|w'] eqn:E;
    cbn [world_of] in *; try exact Hstep.
  apply run_left_le in E.
  destruct Hstep as (n1 & Hl1 & Hp1).
  destruct (IH m ltac:(lia) i' w') as (n2 & Hl2 & Hp2).
  exists (n1 ++ n2). rewrite Hl2, Hl1, app_assoc, forallb_app, Hp1, Hp2. auto.
Qed.

Lemma confined_forever {R T} (t : itree uartE R) :
  confined P t -> confined P (ITree.forever t : itree uartE T).
Proof.
  intros Ht d n.
  induction n as [n IH] using lt_wf_ind. intros w.
  rewrite run_forever. specialize (Ht d n w).
  destruct (run d n t w) as [r w' [|m]|w'|w'] eqn:E;
    cbn [world_of] in *; try exact Ht.
  apply run_left_le in E.
  destruct Ht as (n1 & Hl1 & Hp1).
  destruct (IH m ltac:(lia) w') as (n2 & Hl2 & Hp2).
  exists (n1 ++ n2). rewrite Hl2, Hl1, app_assoc, forallb_app, Hp1, Hp2. auto.
Qed.

Lemma confined_while cond body :
  confined P cond -> confined P body -> confined P (while cond body).
Proof.
  intros Hc Hb. apply confined_iter. intros _.
  apply confined_bind; [exact Hc|]. intros [|].
  - apply confined_bind; [exact Hb|]. intros _. apply confined_ret.
  - apply confined_ret.
Qed.

Lemma confined_trap {R} : confined P (trap : itree uartE R).
Proof.
  apply confined_bind; [apply confined_trigger; exact I | intros []].
Qed.

End Confinement.

Lemma confined_read_member f :
  In (f_offset f) [0; 8; 12] -> confined allowed (read_member uartlite f).
Proof.
  intros Hf. apply confined_bind; [|intros; apply confined_ret].
  apply confined_trigger. intros s v. cbn [allowed].
  destruct Hf as [<-|[<-|[<-|[]]]]; reflexivity.
Qed.

Lemma confined_write_member f v :
  f = tx_fifo \/ (f_offset f = 12 /\ f_width f <> 32) ->
  confined allowed (write_member uartlite f v).
Proof.
  intros [->|[Hoff Hwidth]].
  - apply confined_trigger. intros s. reflexivity.
  - unfold write_member. apply Z.eqb_neq in Hwidth. rewrite Hwidth, Hoff.
    apply confined_bind; [|intros word]; apply confined_trigger; intros s;
      try intros v'; reflexivity.
Qed.

Lemma confined_reset : confined allowed (reset_uartlite uartlite).
Proof.
  unfold reset_uartlite.
  apply confined_bind; [|intros _; apply confined_bind; [|intros _]];
    apply confined_write_member; right; split; (reflexivity || discriminate).
Qed.

Lemma confined_putc cs c : confined allowed (putc_uartlite cs uartlite c).
Proof.
  apply confined_bind.
  - apply confined_while; [|apply confined_ret].
    apply confined_bind; [|intros; apply confined_ret].
    apply confined_read_member. cbn. auto.
  - intros _. apply confined_write_member. now left.
Qed.

Lemma confined_getc : confined allowed (getc_uartlite uartlite).
Proof.
  apply confined_bind.
  - apply confined_while; [|apply confined_ret].
    apply confined_bind; [|intros; apply confined_ret].
    apply confined_read_member. cbn. auto.
  - intros _. apply confined_bind; [|intros; apply confined_ret].
    apply confined_read_member. cbn. auto.
Qed.

Lemma confined_puts cs str : confined allowed (puts_uartlite cs uartlite str).
Proof.
  apply confined_iter. intros pc.
  destruct (nth_error str pc) as [ch|]; [|apply confined_trap].
  destruct (truthy (char_value cs ch)); [|apply confined_ret].
  apply confined_bind; [apply confined_putc | intros; apply confined_ret].
Qed.

Lemma confined_main cs : confined allowed (main cs).
Proof.
  apply confined_bind; [apply confined_reset|]. intros _.
  apply confined_forever, confined_puts.
Qed.

Lemma confined_invoke cs c : confined allowed (invoke cs c).
Proof.
  destruct c; (apply confined_bind; [|intros; apply confined_ret]).
  - apply confined_reset.
  - apply confined_putc.
  - apply confined_getc.
  - apply confined_puts.
  - apply confined_main.
Qed.

(** A one-bit field of the status word is the bit at its position. *)
Lemma one_bit_flag f word :
  f_width f = 1 -> 0 <= f_lsb f ->
  truthy (get_field f word) = Z.testbit word (f_lsb f).
Proof.
  intros Hw Hl. unfold truthy, get_field. rewrite Hw, Z.land_ones by lia.
  change (2 ^ 1) with 2.
  rewrite <- Z.bit0_mod, Z.shiftr_spec by lia. cbn [Z.add].
  destruct (Z.testbit word (f_lsb f)); reflexivity.
Qed.

(** C6. The register block is laid out as the map says: as declared,
    [uartlite_s] puts the receive data word at offset 0x0 and makes it
    [const] (read-only), the transmit data word at 0x4 (writable), the
    status word at 0x8 ([const]) with rx-valid, rx-full, tx-empty,
    tx-full, intr-enabled, overrun, frame and parity at bits 0 to 7, and
    the control word at 0xC with tx-reset at bit 0, rx-reset at bit 1 and
    intr-enable at bit 4.  Every operation uses the block that way: the
    two flags it waits on are bits 3 and 0 of the status word, and each of
    its accesses is a load at 0x0, 0x8 or 0xC or a store at 0x4 or 0xC
    from the base of the block, so the transmit data word is only ever
    written and the receive data and status words only ever read. *)
Theorem register_block_layout :
  layout uartlite_s =
    [ Field "rx_fifo" 0x0 0 32 true;
      Field "tx_fifo" 0x4 0 32 false;
      Field "status" 0x8 0 32 true;
      Field "rx_valid" 0x8 0 1 true;
      Field "rx_full" 0x8 1 1 true;
      Field "tx_empty" 0x8 2 1 true;
      Field "tx_full" 0x8 3 1 true;
      Field "intr_enabled" 0x8 4 1 true;
      Field "overrun" 0x8 5 1 true;
      Field "frame" 0x8 6 1 true;
      Field "parity" 0x8 7 1 true;
      Field "control" 0xC 0 32 false;
      Field "tx_reset" 0xC 0 1 false;
      Field "rx_reset" 0xC 1 1 false;
      Field "intr_enable" 0xC 4 1 false ] /\
  (forall d s, tx_is_full d s = Z.testbit (status_word (d s)) 3) /\
  (forall d s, rx_is_valid d s = Z.testbit (status_word (d s)) 0) /\
  (forall char_signed d c fuel w a,
     In a (fresh w (world_of (run d fuel (invoke char_signed c) w))) ->
     match a with
     | Rd _ addr _ =>
         addr = uartlite + 0x0 \/ addr = uartlite + 0x8 \/ addr = uartlite + 0xC
     | Wr _ addr _ =>
         addr = uartlite + 0x4 \/ addr = uartlite + 0xC
     end).
Proof.
  split; [reflexivity|]. split; [|split].
  - intros d s. apply one_bit_flag; [reflexivity | cbn; lia].
  - intros d s. apply one_bit_flag; [reflexivity | cbn; lia].
  - intros cs d c fuel w a Ha.
    destruct (confined_invoke cs c d fuel w) as (new & Hlog & Hall).
    rewrite (fresh_app _ _ _ Hlog) in Ha.
    rewrite forallb_forall in Hall. specialize (Hall a Ha).
    destruct a as [s addr v|s addr v]; cbn [allowed] in Hall;
      repeat (apply orb_prop in Hall as [Hall|Hall]);
      apply Z.eqb_eq in Hall; subst addr; auto.
Qed.

(** The one store of a [putc_uartlite] against [slow] goes to offset 0x4. *)
Lemma register_block_layout_witness :
  0x40600004 = uartlite + 0x4 \/ 0x40600004 = uartlite + 0xC.
Proof.
  apply (proj2 (proj2 (proj2 register_block_layout))
           true slow (CallPutc "a") 9%nat power_on (Wr 4 0x40600004 97)).
  vm_compute. auto 10.
Defined.

(* ===================================================================== *)
(** ** The error flags are never looked at *)
(* ===================================================================== *)

Lemma alike_refl w : alike w w.
Proof. repeat split. Qed.

Lemma alike_logged w1 w2 a1 a2 :
  writes (log w1) = writes (log w2) -> writes [a1] = writes [a2] ->
  writes (log w1 ++ [a1]) = writes (log w2 ++ [a2]).
Proof.
  intros H1 H2. rewrite !writes_app, H1, H2. reflexivity.
Qed.

Lemma get_field_blind f v1 v2 :
  f_width f = 1 -> 0 <= f_lsb f ->
  Z.testbit error_flags (f_lsb f) = false ->
  Z.ldiff v1 error_flags = Z.ldiff v2 error_flags ->
  get_field f v1 = get_field f v2.
Proof.
  intros Hw Hl Hout Hv.
  assert (Hbit : forall v, get_field f v = Z.b2z (Z.testbit (Z.ldiff v error_flags) (f_lsb f))).
  { intros v. unfold get_field. rewrite Hw, Z.land_ones by lia.
    change (2 ^ 1) with 2.
    rewrite <- Z.bit0_mod, Z.shiftr_spec, Z.ldiff_spec, Hout, andb_true_r by lia.
    reflexivity. }
  rewrite !Hbit, Hv. reflexivity.
Qed.

Section Blind.

Variables d1 d2 : device.
Hypothesis same : same_but_errors d1 d2.

Lemma handle_agree {X} (e : uartE X) w1 w2 :
  alike w1 w2 ->
  match handle d1 e w1, handle d2 e w2 with
  | Some (x1, w1'), Some (x2, w2') => agree e x1 x2 /\ alike w1' w2'
  | None, None => True
  | _, _ => False
  end.
Proof.
  intros (Hnow & Htx & Hctl & Hw).
  destruct e as [addr|addr v|]; cbn [handle agree]; [| |exact I].
  - destruct (addr =? status_addr).
    + rewrite Hnow. split; [apply same|].
      repeat split; cbn [now tx_latch control_latch log]; try congruence.
      now apply alike_logged.
    + destruct (addr =? rx_addr); [|destruct (addr =? tx_addr);
        [|destruct (addr =? control_addr); [|exact I]]];
        (split; [|repeat split; cbn [now tx_latch control_latch log];
                  try congruence; now apply alike_logged]).
      * rewrite Hnow. apply same.
      * exact Htx.
      * exact Hctl.
  - destruct (addr =? tx_addr); [|destruct (addr =? control_addr);
      [|destruct ((addr =? rx_addr) || (addr =? status_addr)); [|exact I]]];
      (split; [reflexivity|]);
      repeat split; cbn [now tx_latch control_latch log]; try congruence;
      now apply alike_logged.
Qed.

Lemma sim_ret {R1 R2} (RR : R1 -> R2 -> Prop) r1 r2 :
  RR r1 r2 -> simulates d1 d2 RR (Ret r1) (Ret r2).
Proof.
  intros Hr n w1 w2 Hw. rewrite !run_ret. cbn. auto.
Qed.

Lemma sim_trigger {X} (e : uartE X) :
  simulates d1 d2 (agree e) (ITree.trigger e) (ITree.trigger e).
Proof.
  intros n w1 w2 Hw. destruct n as [|n]; [exact Hw|].
  rewrite !run_trigger. pose proof (handle_agree e w1 w2 Hw) as H.
  destruct (handle d1 e w1) as [[x1 w1']|], (handle d2 e w2) as [[x2 w2']|];
    cbn; try contradiction; intuition.
Qed.

Lemma sim_bind {R1 R2 T1 T2} (RR : R1 -> R2 -> Prop) (RT : T1 -> T2 -> Prop)
  t1 t2 (k1 : R1 -> itree uartE T1) (k2 : R2 -> itree uartE T2) :
  simulates d1 d2 RR t1 t2 ->
  (forall r1 r2, RR r1 r2 -> simulates d1 d2 RT (k1 r1) (k2 r2)) ->
  simulates d1 d2 RT (ITree.bind t1 k1) (ITree.bind t2 k2).
Proof.
  intros Ht Hk n w1 w2 Hw. rewrite !run_bind. specialize (Ht n w1 w2 Hw).
  destruct (run d1 n t1 w1) as [r1 w1' m1|w1'|w1'],
           (run d2 n t2 w2) as [r2 w2' m2|w2'|w2']; cbn in Ht; try contradiction;
    try exact Ht.
  destruct Ht as (Hr & Hw' & <-). now apply Hk.
Qed.

Lemma sim_iter {I R} (step : I -> itree uartE (I + R)) :
  (forall i, simulates d1 d2 eq (step i) (step i)) ->
  forall i, simulates d1 d2 eq (ITree.iter step i) (ITree.iter step i).
Proof.
  intros Hstep i n. revert i.
  induction n as [n IH] using lt_wf_ind. intros i w1 w2 Hw.
  rewrite !run_iter. specialize (Hstep i n w1 w2 Hw).
  destruct (run d1 n (step i) w1) as [r1 w1' m1|w1'|w1'] eqn:E1,
           (run d2 n (step i) w2) as [r2 w2' m2|w2'|w2']; cbn in Hstep;
    try contradiction; try exact Hstep.
  destruct Hstep as (<- & Hw' & <-). apply run_left_le in E1.
  destruct r1 as [i'|r]; [|cbn; auto].
  destruct m1 as [|m]; [exact Hw'|]. apply IH; [lia | exact Hw'].
Qed.

Lemma sim_forever {R T} (t : itree uartE R) :
  simulates d1 d2 eq t t ->
  simulates d1 d2 (@eq T) (ITree.forever t) (ITree.forever t).
Proof.
  intros Ht n.
  induction n as [n IH] using lt_wf_ind. intros w1 w2 Hw.
  rewrite !run_forever. specialize (Ht n w1 w2 Hw).
  destruct (run d1 n t w1) as [r1 w1' m1|w1'|w1'] eqn:E1,
           (run d2 n t w2) as [r2 w2' m2|w2'|w2']; cbn in Ht;
    try contradiction; try exact Ht.
  destruct Ht as (_ & Hw' & <-). apply run_left_le in E1.
  destruct m1 as [|m]; [exact Hw'|]. apply IH; [lia | exact Hw'].
Qed.

Lemma sim_while cond body :
  simulates d1 d2 eq cond cond -> simulates d1 d2 eq body body ->
  simulates d1 d2 eq (while cond body) (while cond body).
Proof.
  intros Hc Hb. apply sim_iter. intros _.
  apply sim_bind with (RR := eq); [exact Hc|]. intros b ? <-. destruct b.
  - apply sim_bind with (RR := eq); [exact Hb|]. intros; now apply sim_ret.
  - now apply sim_ret.
Qed.

(** Reading a one-bit status flag outside the error flags. *)
Lemma sim_read_flag f :
  f_offset f = f_offset status -> f_width f = 1 -> 0 <= f_lsb f ->
  Z.testbit error_flags (f_lsb f) = false ->
  simulates d1 d2 eq (read_member uartlite f) (read_member uartlite f).
Proof.
  intros Hoff Hw Hl Hout. unfold read_member, load. rewrite Hoff.
  eapply sim_bind; [apply sim_trigger|].
  intros v1 v2 Hv. apply sim_ret. now apply get_field_blind.
Qed.

(** Events other than a load of the status word. *)
Lemma sim_plain {X} (e : uartE X) :
  agree e = eq -> simulates d1 d2 eq (ITree.trigger e) (ITree.trigger e).
Proof.
  intros H. rewrite <- H. apply sim_trigger.
Qed.

Lemma sim_write_member f v :
  f = tx_fifo \/ f_offset f = f_offset control ->
  simulates d1 d2 eq (write_member uartlite f v) (write_member uartlite f v).
Proof.
  intros [->|Hoff].
  - now apply sim_plain.
  - unfold write_member. destruct (f_width f =? 32).
    + now apply sim_plain.
    + rewrite Hoff. unfold load, store.
      apply sim_bind with (RR := eq); [now apply sim_plain|].
      intros word ? <-. now apply sim_plain.
Qed.

Lemma sim_reset : simulates d1 d2 eq (reset_uartlite uartlite) (reset_uartlite uartlite).
Proof.
  unfold reset_uartlite.
  apply sim_bind with (RR := eq); [|intros _ _ _; apply sim_bind with (RR := eq);
                                    [|intros _ _ _]];
    apply sim_write_member; now right.
Qed.

Lemma sim_putc cs c :
  simulates d1 d2 eq (putc_uartlite cs uartlite c) (putc_uartlite cs uartlite c).
Proof.
  apply sim_bind with (RR := eq).
  - apply sim_while; [|now apply sim_ret].
    apply sim_bind with (RR := eq); [|intros v ? <-; now apply sim_ret].
    now apply sim_read_flag.
  - intros _ _ _. apply sim_write_member. now left.
Qed.

Lemma sim_getc : simulates d1 d2 eq (getc_uartlite uartlite) (getc_uartlite uartlite).
Proof.
  apply sim_bind with (RR := eq).
  - apply sim_while; [|now apply sim_ret].
    apply sim_bind with (RR := eq); [|intros v ? <-; now apply sim_ret].
    now apply sim_read_flag.
  - intros _ _ _. apply sim_bind with (RR := eq); [|intros v ? <-; now apply sim_ret].
    unfold read_member, load.
    apply sim_bind with (RR := eq); [now apply sim_plain|].
    intros v ? <-. now apply sim_ret.
Qed.

Lemma sim_puts cs str :
  simulates d1 d2 eq (puts_uartlite cs uartlite str) (puts_uartlite cs uartlite str).
Proof.
  apply sim_iter. intros pc.
  destruct (nth_error str pc) as [ch|].
  - destruct (truthy (char_value cs ch)); [|now apply sim_ret].
    apply sim_bind with (RR := eq); [apply sim_putc|]. intros; now apply sim_ret.
  - apply sim_bind with (RR := eq); [now apply sim_plain | intros []].
Qed.

Lemma sim_main cs : simulates d1 d2 eq (main cs) (main cs).
Proof.
  apply sim_bind with (RR := eq); [apply sim_reset|]. intros _ _ _.
  apply sim_forever, sim_puts.
Qed.

Lemma sim_invoke cs c : simulates d1 d2 eq (invoke cs c) (invoke cs c).
Proof.
  destruct c; (apply sim_bind with (RR := eq); [|intros ? ? <-; now apply sim_ret]).
  - apply sim_reset.
  - apply sim_putc.
  - apply sim_getc.
  - apply sim_puts.
  - apply sim_main.
Qed.

End Blind.

(** C8. Take two device traces that differ at most in the overrun,
    frame and parity bits of their status words (bits 5, 6 and 7).  Then
    every operation, started in the same world with the same fuel, stops
    the same way against both: it returns the same value having used the
    same fuel, or is still running, or has faulted, and in each case it
    has made the same stores in the same order, is at the same step, and
    leaves the same words in the transmit data and control registers. *)
Theorem error_flags_never_matter
  (char_signed : bool) (d1 d2 : device) (c : call) (fuel : nat) (w : world) :
  same_but_errors d1 d2 ->
  error_flags = 0xE0 /\
  matching eq (run d1 fuel (invoke char_signed c) w)
              (run d2 fuel (invoke char_signed c) w).
Proof.
  intros same. split; [reflexivity|].
  apply (sim_invoke d1 d2 same char_signed c fuel w w), alike_refl.
Qed.

(** [slow] and [noisy] differ exactly in the three error flags; a
    [getc_uartlite] gives the same character against both. *)
Lemma error_flags_never_matter_witness :
  error_flags = 0xE0 /\
  matching eq (run slow 20 (invoke true CallGetc) power_on)
              (run noisy 20 (invoke true CallGetc) power_on).
Proof.
  apply (error_flags_never_matter true slow noisy CallGetc 20 power_on).
  intros t. unfold slow, noisy. destruct (t <=? 3)%nat; split; reflexivity.
Defined.

(* ===================================================================== *)
(** ** Printing against any device *)
(* ===================================================================== *)

Lemma initial_nil {A} (l : list A) : initial [] l.
Proof. exists l. reflexivity. Qed.

Lemma initial_refl {A} (l : list A) : initial l l.
Proof. exists []. now rewrite app_nil_r. Qed.

Lemma initial_app {A} (l l1 l2 : list A) : initial l1 l2 -> initial (l ++ l1) (l ++ l2).
Proof. intros (rest & ->). exists rest. now rewrite app_assoc. Qed.

Lemma initial_more {A} (l1 l2 l3 : list A) : initial l1 l2 -> initial l1 (l2 ++ l3).
Proof. intros (rest & ->). exists (rest ++ l3). now rewrite app_assoc. Qed.

Lemma tx_when_room_app d l1 l2 :
  tx_when_room d l1 -> tx_when_room d l2 -> tx_when_room d (l1 ++ l2).
Proof.
  intros H1 H2 s v Hin. apply in_app_or in Hin as [Hin|Hin]; eauto.
Qed.

Lemma tx_when_room_polls d t k : tx_when_room d (polls d t k).
Proof.
  intros s v Hin. now apply no_store_in_polls in Hin.
Qed.

(** What one [putc_uartlite] has added to the log, at any fuel. *)
Lemma putc_any cs d c w n :
  exists new,
    log (world_of (run d n (putc_uartlite cs uartlite c) w)) = log w ++ new /\
    tx_when_room d new /\
    match run d n (putc_uartlite cs uartlite c) w with
    | Returned _ _ _ => writes new = [(tx_addr, u32_of_char cs c)]
    | Running _ => writes new = []
    | Faulted _ => False
    end.
Proof.
  destruct (run_log_grows d n (putc_uartlite cs uartlite c) w) as (new & Hlog).
  exists new. split; [exact Hlog|].
  destruct (run d n (putc_uartlite cs uartlite c) w) as [[] w' m|w'|w'] eqn:E;
    cbn [world_of] in Hlog.
  - destruct (putc_returned _ _ _ _ _ _ _ E) as (k & _ & Hgo & Hfresh).
    rewrite (fresh_app _ _ _ Hlog) in Hfresh. subst new. split.
    + apply tx_when_room_app; [apply tx_when_room_polls|].
      intros s v [[= <- _]|[]]. exact Hgo.
    + rewrite writes_app. unfold polls.
      induction (seq (S (now w)) (S k)) as [|x l IH]; [reflexivity | exact IH].
  - destruct (putc_running _ _ _ _ _ _ E) as (k & Hfresh).
    rewrite (fresh_app _ _ _ Hlog) in Hfresh. subst new. split.
    + apply tx_when_room_polls.
    + unfold polls. induction (seq (S (now w)) k) as [|x l IH]; [reflexivity | exact IH].
  - now apply putc_no_fault in E.
Qed.

(** What the loop of [puts_uartlite] has added to the log, at any fuel,
    from any character of a terminated string on. *)
Lemma puts_loop_any cs d body : forall pre rest w n,
  ~ In NUL body ->
  exists new,
    log (world_of (run d n (puts_loop cs uartlite (pre ++ body ++ NUL :: rest)
                              (length pre)) w)) = log w ++ new /\
    tx_when_room d new /\
    initial (writes new) (tx_writes cs body) /\
    match run d n (puts_loop cs uartlite (pre ++ body ++ NUL :: rest) (length pre)) w with
    | Returned _ _ _ => writes new = tx_writes cs body
    | Running _ => True
    | Faulted _ => False
    end.
Proof.
  induction body as [|c body IH]; intros pre rest w n Hnul;
    unfold puts_loop; rewrite run_iter; cbn beta;
    rewrite nth_error_app2, Nat.sub_diag by lia; cbn [app nth_error].
  - rewrite truthy_NUL, run_ret. exists []. cbn [world_of].
    rewrite app_nil_r. repeat split. intros s v []. apply initial_nil.
  - rewrite truthy_not_NUL by (intros ->; apply Hnul; now left).
    rewrite run_bind.
    destruct (putc_any cs d c w n) as (n1 & Hl1 & Hr1 & Hw1).
    destruct (run d n (putc_uartlite cs uartlite c) w) as [[] w1 m|w1|w1];
      cbn [world_of] in Hl1; [| |contradiction].
    + rewrite run_ret. destruct m as [|m].
      * exists n1. cbn [world_of]. split; [exact Hl1|]. split; [exact Hr1|].
        split; [|exact I]. rewrite Hw1.
        apply (initial_app [(tx_addr, u32_of_char cs c)]), initial_nil.
      * specialize (IH (pre ++ [c]) rest w1 m ltac:(intros H; apply Hnul; now right)).
        rewrite <- app_assoc, length_app, Nat.add_1_r in IH. cbn [app] in IH.
        unfold puts_loop in IH.
        destruct IH as (n2 & Hl2 & Hr2 & Hi2 & Ho2).
        exists (n1 ++ n2). rewrite Hl2, Hl1, app_assoc.
        split; [reflexivity|]. split; [now apply tx_when_room_app|].
        rewrite writes_app, Hw1. split.
        -- apply (initial_app [(tx_addr, u32_of_char cs c)]), Hi2.
        -- destruct (run d m _ w1); try exact Ho2. rewrite Ho2. reflexivity.
    + exists n1. cbn [world_of]. split; [exact Hl1|]. split; [exact Hr1|].
      split; [|exact I]. rewrite Hw1. apply initial_nil.
Qed.

(** X3. Whatever the device does and whatever the fuel,
    [puts_uartlite] on a terminated string never faults; the stores it
    has made so far are the first characters of the string, in order, each
    to the transmit data word and each at a step where the transmitter had
    room; and if it has returned they are all the characters before the
    terminator and nothing more. *)
Theorem puts_orderly_on_any_device
  (char_signed : bool) (d : device) (body rest : list ascii) (w : world) (fuel : nat) :
  ~ In NUL body ->
  let o := run d fuel (puts_uartlite char_signed uartlite (body ++ NUL :: rest)) w in
  (forall w', o <> Faulted w') /\
  initial (writes (fresh w (world_of o)))
          (map (fun c => (tx_addr, u32_of_char char_signed c)) body) /\
  tx_when_room d (fresh w (world_of o)) /\
  (forall w' left, o = Returned tt w' left ->
     writes (fresh w w') = map (fun c => (tx_addr, u32_of_char char_signed c)) body).
Proof.
  intros Hnul o.
  destruct (puts_loop_any char_signed d body [] rest w fuel Hnul)
    as (new & Hlog & Hroom & Hinit & Hout).
  cbn [app length] in Hlog, Hout. fold (puts_uartlite char_signed uartlite (body ++ NUL :: rest)) in Hlog, Hout.
  fold o in Hlog, Hout. rewrite (fresh_app _ _ _ Hlog).
  split; [|split; [exact Hinit|split; [exact Hroom|]]].
  - intros w' E. rewrite E in Hout. exact Hout.
  - intros w' left E. rewrite E in Hout, Hlog. cbn [world_of] in Hlog.
    rewrite (fresh_app _ _ _ Hlog). exact Hout.
Qed.

(** ["AB"] against [slow], cut short after the first store. *)
Lemma puts_orderly_on_any_device_witness :
  initial (writes (fresh power_on
             (world_of (run slow 12 (puts_uartlite true uartlite ["A"; "B"; NUL]%char) power_on))))
          [(tx_addr, 65); (tx_addr, 66)].
Proof.
  apply (puts_orderly_on_any_device true slow ["A"; "B"]%char [] power_on 12).
  intros [H|[H|[]]]; discriminate.
Defined.

Lemma putc_returns_when_room_recurs cs d c w :
  room_recurs d ->
  exists n w', (now w < now w')%nat /\ forall j,
    run d (n + j) (putc_uartlite cs uartlite c) w = Returned tt w' j.
Proof.
  intros Hroom. destruct (Hroom (now w)) as (s & Hs & Hclear).
  destruct (first_go (tx_is_full d) (now w) s Hs Hclear) as (k & Hwait & Hgo).
  exists (2 * k + 1 + 1)%nat. eexists. split.
  2:{ intros j.
      replace (2 * k + 1 + 1 + j)%nat with (2 * k + 1 + S j)%nat by lia.
      apply putc_returns; assumption. }
  unfold stored_tx. cbn [now]. rewrite polled_now. lia.
Qed.

Lemma puts_loop_returns_when_room_recurs cs d body :
  room_recurs d ->
  forall pre rest w, ~ In NUL body ->
  exists n w', (now w + length body <= now w')%nat /\ forall j,
    run d (n + j) (puts_loop cs uartlite (pre ++ body ++ NUL :: rest) (length pre)) w
    = Returned tt w' j.
Proof.
  intros Hroom. induction body as [|c body IH]; intros pre rest w Hnul.
  - exists 0%nat, w. split; [cbn; lia|]. intros j.
    unfold puts_loop. rewrite run_iter. cbn beta.
    rewrite nth_error_app2, Nat.sub_diag by lia. cbn [app nth_error].
    rewrite truthy_NUL, run_ret. reflexivity.
  - destruct (putc_returns_when_room_recurs cs d c w Hroom) as (n1 & w1 & Hn1 & H1).
    specialize (IH (pre ++ [c]) rest w1 ltac:(intros H; apply Hnul; now right)).
    rewrite <- app_assoc, length_app, Nat.add_1_r in IH. cbn [app] in IH.
    destruct IH as (n2 & w2 & Hn2 & H2).
    exists (n1 + S n2)%nat, w2. split; [cbn [length]; lia|]. intros j.
    unfold puts_loop. rewrite run_iter. cbn beta.
    rewrite nth_error_app2, Nat.sub_diag by lia. cbn [app nth_error].
    rewrite truthy_not_NUL by (intros ->; apply Hnul; now left).
    rewrite run_bind.
    replace (n1 + S n2 + j)%nat with (n1 + S (n2 + j))%nat by lia.
    rewrite H1, run_ret. apply H2.
Qed.

(** X4. Against a device whose transmitter has room again and again,
    [puts_uartlite] on a terminated string returns, given enough fuel,
    having stored exactly the characters before the terminator, in order:
    the loop waits as long as it must for each character and loses
    none.  Each character costs at least one poll of the status word. *)
Theorem puts_returns_when_room_recurs
  (char_signed : bool) (d : device) (body rest : list ascii) (w : world) :
  room_recurs d ->
  ~ In NUL body ->
  exists fuel w',
    run d fuel (puts_uartlite char_signed uartlite (body ++ NUL :: rest)) w
      = Returned tt w' O /\
    writes (fresh w w') = map (fun c => (tx_addr, u32_of_char char_signed c)) body /\
    (now w + length body <= now w')%nat.
Proof.
  intros Hroom Hnul.
  destruct (puts_loop_returns_when_room_recurs char_signed d body Hroom [] rest w Hnul)
    as (n & w' & Hnow & Hrun).
  specialize (Hrun 0%nat). rewrite Nat.add_0_r in Hrun. cbn [app length] in Hrun.
  exists n, w'. split; [exact Hrun|]. split; [|exact Hnow].
  destruct (puts_loop_any char_signed d body [] rest w n Hnul)
    as (new & Hlog & Hr & _ & Hout).
  cbn [app length] in Hlog, Hout. rewrite Hrun in Hlog, Hout. cbn [world_of] in Hlog.
  rewrite (fresh_app _ _ _ Hlog). exact Hout.
Qed.

(** [blinking] has room at every odd step. *)
Lemma blinking_room_recurs : room_recurs blinking.
Proof.
  intros t. exists (S (2 * t)). split; [lia|].
  unfold tx_is_full, waits, blinking.
  rewrite Nat.even_succ, Nat.odd_mul. reflexivity.
Defined.

Lemma puts_returns_when_room_recurs_witness :
  exists fuel w',
    run blinking fuel (puts_uartlite true uartlite ["A"; "B"; NUL]%char) power_on
      = Returned tt w' O /\
    writes (fresh power_on w') = [(tx_addr, 65); (tx_addr, 66)] /\
    (0 + 2 <= now w')%nat.
Proof.
  apply (puts_returns_when_room_recurs true blinking ["A"; "B"]%char [] power_on).
  - exact blinking_room_recurs.
  - intros [H|[H|[]]]; discriminate.
Defined.

(* ===================================================================== *)
(** ** [main] against any device *)
(* ===================================================================== *)

Lemma in_writes s addr v l : In (Wr s addr v) l -> In (addr, v) (writes l).
Proof.
  intros H. unfold writes. apply in_flat_map. exists (Wr s addr v).
  split; [exact H | now left].
Qed.

Lemma tx_when_room_control d l ws :
  initial (writes l) (map (pair control_addr) ws) -> tx_when_room d l.
Proof.
  intros (rest & Hrest) s v Hin. apply in_writes in Hin.
  assert (H : In (tx_addr, v) (map (pair control_addr) ws))
    by (rewrite Hrest; apply in_or_app; now left).
  apply in_map_iff in H as (x & Hx & _). discriminate.
Qed.

(** One assignment to a bit-field of the control word, at any fuel. *)
Lemma write_control_any d f v n w :
  f_offset f = f_offset control -> (f_width f =? 32) = false ->
  run d n (write_member uartlite f v) w =
  match n with
  | O => Running w
  | S O => Running (World (now w) (tx_latch w) (control_latch w)
                          (log w ++ [Rd (now w) control_addr (control_latch w)]))
  | S (S m) => Returned tt (updated_control f v w) m
  end.
Proof.
  intros Hoff Hwidth. destruct n as [|[|m]].
  - unfold write_member. rewrite Hwidth, run_bind. reflexivity.
  - unfold write_member, load. rewrite Hwidth, Hoff, run_bind, run_trigger.
    reflexivity.
  - now apply run_write_control.
Qed.

(** [reset_uartlite] at any fuel: it never looks at the device, and what
    it has stored so far are the first of its three control words. *)
Lemma reset_any d w n :
  exists new,
    log (world_of (run d n (reset_uartlite uartlite) w)) = log w ++ new /\
    initial (writes new) (map (pair control_addr) (reset_words (control_latch w))) /\
    match run d n (reset_uartlite uartlite) w with
    | Returned _ w' m => w' = after_reset w /\ (6 + m = n)%nat /\
                         writes new = map (pair control_addr) (reset_words (control_latch w))
    | Running w' => (n < 6)%nat /\ now w' = now w
    | Faulted _ => False
    end.
Proof.
  unfold reset_uartlite.
  rewrite run_bind, write_control_any by reflexivity.
  destruct n as [|[|n]].
  1: exists []; split; [now rewrite app_nil_r|];
     split; [apply initial_nil | split; [lia | reflexivity]].
  1: eexists; split; [cbn [world_of log]; reflexivity|];
     split; [apply initial_nil | split; [lia | reflexivity]].
  rewrite run_bind, write_control_any by reflexivity.
  destruct n as [|[|n]].
  1,2: eexists; split; [unfold updated_control; cbn [world_of log];
                        rewrite <- ?app_assoc; reflexivity|];
       split; [eexists; reflexivity | split; [lia | reflexivity]].
  rewrite write_control_any by reflexivity.
  destruct n as [|[|n]].
  1,2: eexists; split; [unfold updated_control; cbn [world_of log];
                        rewrite <- ?app_assoc; reflexivity|];
       split; [eexists; reflexivity | split; [lia | reflexivity]].
  eexists. split; [unfold updated_control; cbn [world_of log];
                   rewrite <- ?app_assoc; reflexivity|].
  split; [apply initial_refl|]. repeat split.
Qed.

Lemma concat_repeat_succ {A} (l : list A) k :
  concat (repeat l (S k)) = l ++ concat (repeat l k).
Proof. reflexivity. Qed.

(** The rounds of [main] at any fuel, against any device. *)
Lemma rounds_any cs d n : forall w,
  exists w' new k,
    run d n (ITree.forever (puts_uartlite cs uartlite hello_world) : itree uartE Z) w
      = Running w' /\
    log w' = log w ++ new /\
    tx_when_room d new /\
    initial (writes new) (concat (repeat (tx_writes cs greeting) k)).
Proof.
  induction n as [n IH] using lt_wf_ind. intros w.
  rewrite run_forever, hello_world_greeting.
  destruct (puts_loop_any cs d greeting [] [] w n greeting_no_NUL)
    as (n1 & Hl1 & Hr1 & Hi1 & Ho1).
  cbn [app length] in Hl1, Ho1.
  fold (puts_uartlite cs uartlite (greeting ++ [NUL])) in Hl1, Ho1.
  destruct (run d n (puts_uartlite cs uartlite (greeting ++ [NUL])) w)
    as [[] w1 [|m]|w1|w1] eqn:E; cbn [world_of] in Hl1; [| | |contradiction].
  - exists w1, n1, 1%nat. rewrite concat_repeat_succ, Ho1. cbn [repeat concat].
    repeat split; try assumption. apply initial_refl.
  - apply run_left_le in E.
    destruct (IH m ltac:(lia) w1) as (w2 & n2 & k & Hrun & Hl2 & Hr2 & Hi2).
    exists w2, (n1 ++ n2), (S k). split; [exact Hrun|].
    rewrite Hl2, Hl1, app_assoc. split; [reflexivity|].
    split; [now apply tx_when_room_app|].
    rewrite writes_app, Ho1, concat_repeat_succ. now apply initial_app.
  - exists w1, n1, 1%nat. rewrite concat_repeat_succ. cbn [repeat concat].
    rewrite app_nil_r. repeat split; assumption.
Qed.

(** X1. Whatever the device does, [main] never returns and never
    faults.  At any fuel its stores are an initial segment of: the three
    control words of one reset, then the greeting round after round; and
    every store to the transmit data word happened at a step where the
    transmitter had room. *)
Theorem main_orderly_on_any_device
  (char_signed : bool) (d : device) (w : world) (fuel : nat) :
  exists w' k,
    run d fuel (main char_signed) w = Running w' /\
    initial (writes (fresh w w')) (main_writes (control_latch w) k) /\
    tx_when_room d (fresh w w').
Proof.
  unfold main. rewrite run_bind.
  destruct (reset_any d w fuel) as (n1 & Hl1 & Hi1 & Ho1).
  pose proof (tx_when_room_control d _ _ Hi1) as Hr1.
  destruct (run d fuel (reset_uartlite uartlite) w) as [[] w1 m|w1|w1];
    cbn [world_of] in Hl1; [| |contradiction].
  - destruct Ho1 as (-> & _ & Hw1).
    destruct (rounds_any char_signed d m (after_reset w))
      as (w2 & n2 & k & Hrun & Hl2 & Hr2 & Hi2).
    exists w2, k. split; [exact Hrun|].
    erewrite fresh_app by (rewrite Hl2, Hl1, <- app_assoc; reflexivity).
    split; [|now apply tx_when_room_app].
    rewrite writes_app, Hw1. unfold main_writes.
    rewrite <- (greeting_bytes char_signed). now apply initial_app.
  - exists w1, 0%nat. split; [reflexivity|].
    rewrite (fresh_app _ _ _ Hl1). split; [|exact Hr1].
    unfold main_writes. cbn [repeat concat]. now rewrite app_nil_r.
Qed.

(** Whole rounds of [main] against a device whose transmitter has room
    again and again. *)
Lemma rounds_when_room_recurs cs d k :
  room_recurs d ->
  forall w, exists n w' new,
    (forall j,
       run d (n + j) (ITree.forever (puts_uartlite cs uartlite hello_world) : itree uartE Z) w
       = run d j (ITree.forever (puts_uartlite cs uartlite hello_world)) w') /\
    log w' = log w ++ new /\
    writes new = concat (repeat (tx_writes cs greeting) k).
Proof.
  intros Hroom. induction k as [|k IH]; intros w.
  - exists 0%nat, w, []. rewrite app_nil_r. auto.
  - destruct (puts_loop_returns_when_room_recurs cs d greeting Hroom [] [] w greeting_no_NUL)
      as (n1 & w1 & _ & H1).
    destruct (puts_loop_any cs d greeting [] [] w n1 greeting_no_NUL)
      as (new1 & Hl1 & _ & _ & Ho1).
    specialize (H1 0%nat) as H10. rewrite Nat.add_0_r in H10.
    rewrite H10 in Hl1, Ho1. cbn [world_of] in Hl1.
    destruct (IH w1) as (n2 & w2 & new2 & H2 & Hl2 & Hw2).
    exists (n1 + S n2)%nat, w2, (new1 ++ new2). split; [|split].
    + intros j. rewrite run_forever, hello_world_greeting.
      replace (n1 + S n2 + j)%nat with (n1 + S (n2 + j))%nat by lia.
      unfold puts_uartlite. cbn [app length] in H1. rewrite H1. apply H2.
    + rewrite Hl2, Hl1, app_assoc. reflexivity.
    + rewrite writes_app, Ho1, Hw2. reflexivity.
Qed.

(** X2. Against a device whose transmitter has room again and again
    (however long it stays full in between), [main] gets through every
    number of rounds: for each [k] some fuel brings it to the end of the
    [k]-th greeting with exactly the stores of one reset and [k]
    greetings. *)
Theorem main_greets_when_room_recurs
  (char_signed : bool) (d : device) (w : world) (k : nat) :
  room_recurs d ->
  exists fuel w',
    run d fuel (main char_signed) w = Running w' /\
    writes (fresh w w') = main_writes (control_latch w) k.
Proof.
  intros Hroom.
  destruct (rounds_when_room_recurs char_signed d k Hroom (after_reset w))
    as (n & w' & new & Hrun & Hlog & Hw).
  exists (6 + n)%nat, w'. split.
  - unfold main. rewrite run_bind, (run_reset d n w).
    rewrite <- (Nat.add_0_r n), Hrun. apply run_round_start.
  - erewrite fresh_app.
    2:{ rewrite Hlog. unfold after_reset, updated_control. cbn [log].
        rewrite <- !app_assoc. reflexivity. }
    rewrite greeting_bytes in Hw.
    cbn [app]. unfold main_writes. rewrite <- Hw. reflexivity.
Qed.

(** Two rounds against [blinking]. *)
Lemma main_greets_when_room_recurs_witness :
  exists fuel w',
    run blinking fuel (main true) power_on = Running w' /\
    writes (fresh power_on w') = main_writes 0 2.
Proof.
  apply (main_greets_when_room_recurs true blinking power_on 2).
  exact blinking_room_recurs.
Defined.

(* ===================================================================== *)
(** ** What the calls leave alone *)
(* ===================================================================== *)

Lemma handle_latches d {X} (e : uartE X) w x w' :
  handle d e w = Some (x, w') ->
  exists a, log w' = log w ++ [a] /\
    (tx_latch w' = tx_latch w \/ exists s v, a = Wr s tx_addr v) /\
    (control_latch w' = control_latch w \/ exists s v, a = Wr s control_addr v).
Proof.
  destruct e as [addr|addr v|]; cbn [handle].
  - destruct (addr =? status_addr).
    + intros [= <- <-]. eexists. split; [reflexivity|]. auto.
    + destruct (addr =? rx_addr); [|destruct (addr =? tx_addr);
        [|destruct (addr =? control_addr); [|discriminate]]];
        intros [= <- <-]; eexists; (split; [reflexivity|]); auto.
  - destruct (addr =? tx_addr) eqn:Etx; [|destruct (addr =? control_addr) eqn:Ectl;
      [|destruct ((addr =? rx_addr) || (addr =? status_addr)); [|discriminate]]];
      intros [= <- <-]; eexists; (split; [reflexivity|]); cbn [tx_latch control_latch].
    + apply Z.eqb_eq in Etx. subst addr. split; [right; eauto | now left].
    + apply Z.eqb_eq in Ectl. subst addr. split; [now left | right; eauto].
    + auto.
  - discriminate.
Qed.

(** A run that stores nothing to a latched word leaves that word as it
    was. *)
Lemma run_keeps_latches d {R} n : forall (t : itree uartE R) w new,
  log (world_of (run d n t w)) = log w ++ new ->
  ((forall s v, ~ In (Wr s tx_addr v) new) ->
   tx_latch (world_of (run d n t w)) = tx_latch w) /\
  ((forall s v, ~ In (Wr s control_addr v) new) ->
   control_latch (world_of (run d n t w)) = control_latch w).
Proof.
  induction n as [|n IH]; intros t w new; cbn [run];
    destruct (observe t) as [r|t'|X e h]; try (cbn [world_of]; auto; fail).
  destruct (handle d e w) as [[x w1]|] eqn:E; [|cbn [world_of]; auto].
  destruct (handle_latches _ _ _ _ _ E) as (a & Ha & Htx & Hctl).
  destruct (run_log_grows d n (h x) w1) as (new' & Hnew'). intros Hlog.
  assert (Hnew : new = a :: new').
  { rewrite Hnew', Ha, <- app_assoc in Hlog. now apply app_inv_head in Hlog. }
  subst new. destruct (IH (h x) w1 new' Hnew') as (IHtx & IHctl). split; intros Hno.
  - rewrite IHtx by (intros s v Hin; apply (Hno s v); now right).
    destruct Htx as [Htx|(s & v & ->)]; [exact Htx|].
    exfalso. apply (Hno s v). now left.
  - rewrite IHctl by (intros s v Hin; apply (Hno s v); now right).
    destruct Hctl as [Hctl|(s & v & ->)]; [exact Hctl|].
    exfalso. apply (Hno s v). now left.
Qed.

Lemma confined_read_member_by P uart f :
  (forall s v, P (Rd s (uart + f_offset f) v) = true) ->
  confined P (read_member uart f).
Proof.
  intros H. apply confined_bind; [|intros; apply confined_ret].
  apply confined_trigger. exact H.
Qed.

Lemma getc_only_loads : confined is_load (getc_uartlite uartlite).
Proof.
  apply confined_bind.
  - apply confined_while; [|apply confined_ret].
    apply confined_bind; [|intros; apply confined_ret].
    now apply confined_read_member_by.
  - intros _. apply confined_bind; [|intros; apply confined_ret].
    now apply confined_read_member_by.
Qed.

Lemma only_loads_no_store l s addr v :
  forallb is_load l = true -> ~ In (Wr s addr v) l.
Proof.
  intros H Hin. rewrite forallb_forall in H. apply H in Hin. discriminate.
Qed.

Lemma only_loads_writes l : forallb is_load l = true -> writes l = [].
Proof.
  induction l as [|[s a v|s a v] l IH]; cbn [forallb is_load andb];
    [reflexivity | exact IH | discriminate].
Qed.

(** X6. [getc_uartlite] never stores anything: whatever the device and
    the fuel, and whether or not it has returned, every access it has made
    is a load, and the words last stored to the transmit data and control
    registers are as they were. *)
Theorem getc_never_stores (d : device) (w : world) (fuel : nat) :
  let w' := world_of (run d fuel (getc_uartlite uartlite) w) in
  forallb is_load (fresh w w') = true /\
  writes (fresh w w') = [] /\
  tx_latch w' = tx_latch w /\
  control_latch w' = control_latch w.
Proof.
  intros w'. destruct (getc_only_loads d fuel w) as (new & Hlog & Hall).
  fold w' in Hlog. rewrite (fresh_app _ _ _ Hlog).
  split; [exact Hall|]. split; [now apply only_loads_writes|].
  destruct (run_keeps_latches d fuel (getc_uartlite uartlite) w new Hlog) as (Htx & Hctl).
  split; [apply Htx | apply Hctl]; intros s v; now apply only_loads_no_store.
Qed.

Lemma putc_off_control cs c : confined off_control (putc_uartlite cs uartlite c).
Proof.
  apply confined_bind.
  - apply confined_while; [|apply confined_ret].
    apply confined_bind; [|intros; apply confined_ret].
    now apply confined_read_member_by.
  - intros _. apply confined_trigger. intros s. reflexivity.
Qed.

Lemma puts_off_control cs str : confined off_control (puts_uartlite cs uartlite str).
Proof.
  apply confined_iter. intros pc.
  destruct (nth_error str pc) as [ch|]; [|apply confined_trap].
  destruct (truthy (char_value cs ch)); [|apply confined_ret].
  apply confined_bind; [apply putc_off_control | intros; apply confined_ret].
Qed.

Lemma off_control_no_store l s v :
  forallb off_control l = true -> ~ In (Wr s control_addr v) l.
Proof.
  intros H Hin. rewrite forallb_forall in H. apply H in Hin. discriminate.
Qed.

(** X7. The transmit calls keep away from the control register:
    whatever the device, the fuel, the character or the string (terminated
    or not), no access of [putc_uartlite] or [puts_uartlite] is at the
    control word, and the control word is as it was before the call. *)
Theorem transmit_calls_leave_control
  (char_signed : bool) (d : device) (w : world) (fuel : nat)
  (c : ascii) (str : list ascii) :
  let w1 := world_of (run d fuel (putc_uartlite char_signed uartlite c) w) in
  let w2 := world_of (run d fuel (puts_uartlite char_signed uartlite str) w) in
  (forallb off_control (fresh w w1) = true /\ control_latch w1 = control_latch w) /\
  (forallb off_control (fresh w w2) = true /\ control_latch w2 = control_latch w).
Proof.
  intros w1 w2. split.
  - destruct (putc_off_control char_signed c d fuel w) as (new & Hlog & Hall).
    fold w1 in Hlog. rewrite (fresh_app _ _ _ Hlog). split; [exact Hall|].
    apply (run_keeps_latches d fuel _ w new Hlog).
    intros s v. now apply off_control_no_store.
  - destruct (puts_off_control char_signed str d fuel w) as (new & Hlog & Hall).
    fold w2 in Hlog. rewrite (fresh_app _ _ _ Hlog). split; [exact Hall|].
    apply (run_keeps_latches d fuel _ w new Hlog).
    intros s v. now apply off_control_no_store.
Qed.

(* ===================================================================== *)
(** ** Edge cases of printing *)
(* ===================================================================== *)

Lemma run_trap d {R} j w : run d (S j) (trap : itree uartE R) w = Faulted w.
Proof.
  unfold trap. rewrite run_bind, run_trigger. reflexivity.
Qed.

Lemma run_puts_loop_unterminated cs d body :
  (forall s, tx_is_full d s = false) ->
  forall pre w j,
  ~ In NUL body ->
  run d (3 * length body + S j) (puts_loop cs uartlite (pre ++ body) (length pre)) w =
  Faulted (sent cs d body w).
Proof.
  intros room. induction body as [|c body IH]; intros pre w j Hnul;
    unfold puts_loop; rewrite run_iter; cbn beta;
    rewrite nth_error_app2, Nat.sub_diag by lia; cbn [app nth_error].
  - cbn [length Nat.mul Nat.add]. rewrite run_trap. reflexivity.
  - rewrite truthy_not_NUL by (intros ->; apply Hnul; now left).
    replace (3 * length (c :: body) + S j)%nat
      with (2 + S (3 * length body + S j))%nat by (cbn [length]; lia).
    rewrite run_bind, (run_putc_room cs d room), run_ret.
    specialize (IH (pre ++ [c]) (send cs d c w) j).
    rewrite <- app_assoc, length_app, Nat.add_1_r in IH. cbn [app] in IH.
    apply IH. intros H. apply Hnul. now right.
Qed.

(** X5. [puts_uartlite] has no bound but the terminator: given an array
    without a NUL (and a transmitter with room), it sends every character
    of the array, in order, and then reads past the end of the array. *)
Theorem puts_overruns_unterminated_array
  (char_signed : bool) (d : device) (str : list ascii) (w : world) (j : nat) :
  (forall s, tx_is_full d s = false) ->
  ~ In NUL str ->
  exists w',
    run d (3 * length str + S j) (puts_uartlite char_signed uartlite str) w = Faulted w' /\
    writes (fresh w w') = map (fun c => (tx_addr, u32_of_char char_signed c)) str.
Proof.
  intros room Hnul. exists (sent char_signed d str w). split.
  - apply (run_puts_loop_unterminated char_signed d str room [] w j Hnul).
  - destruct (sent_writes char_signed d str w) as (new & Hlog & Hw).
    rewrite (fresh_app _ _ _ Hlog). exact Hw.
Qed.

Lemma puts_overruns_unterminated_array_witness :
  exists w',
    run idle 7 (puts_uartlite true uartlite ["A"; "B"]%char) power_on = Faulted w' /\
    writes (fresh power_on w') = [(tx_addr, 65); (tx_addr, 66)].
Proof.
  apply (puts_overruns_unterminated_array true idle ["A"; "B"]%char power_on 0).
  - intros s. reflexivity.
  - intros [H|[H|[]]]; discriminate.
Defined.

Lemma in_writes_inv addr v l : In (addr, v) (writes l) -> exists s, In (Wr s addr v) l.
Proof.
  unfold writes. rewrite in_flat_map. intros ([s a x|s a x] & Hin & Hx); [destruct Hx|].
  destruct Hx as [[= <- <-]|[]]. eauto.
Qed.

(** X14. With a transmitter that never drains nothing is ever sent:
    [main] makes the three control stores of its reset and no other
    store, however long it runs, and the transmit data word is as it
    was. *)
Theorem main_sends_nothing_when_stuck
  (char_signed : bool) (d : device) (w : world) (j : nat) :
  (forall s, tx_is_full d s = true) ->
  exists w',
    run d (6 + j) (main char_signed) w = Running w' /\
    writes (fresh w w') = map (pair control_addr) (reset_words (control_latch w)) /\
    tx_latch w' = tx_latch w.
Proof.
  intros Hfull. unfold main. rewrite run_bind, (run_reset d j w).
  destruct (rounds_any char_signed d j (after_reset w))
    as (w' & new & k & Hrun & Hlog & Hroom & Hinit).
  assert (Hnone : forall s v, ~ In (Wr s tx_addr v) new).
  { intros s v Hin. apply Hroom in Hin. rewrite Hfull in Hin. discriminate. }
  assert (Hw : writes new = []).
  { destruct (writes new) as [|[a v] l] eqn:E; [reflexivity|]. exfalso.
    destruct Hinit as (rest & Hrest).
    assert (Hin : In (a, v) (concat (repeat (tx_writes char_signed greeting) k)))
      by (rewrite Hrest; now left).
    apply in_concat in Hin as (g & Hg & Hin). apply repeat_spec in Hg. subst g.
    apply in_map_iff in Hin as (c & [= <- <-] & _).
    assert (Hin : In (tx_addr, u32_of_char char_signed c) (writes new))
      by (rewrite E; now left).
    apply in_writes_inv in Hin as (s & Hin). now apply Hnone in Hin. }
  exists w'. split; [exact Hrun|]. split.
  - erewrite fresh_app.
    2:{ rewrite Hlog. unfold after_reset, updated_control. cbn [log].
        rewrite <- !app_assoc. reflexivity. }
    cbn [app]. cbn [writes flat_map app]. fold (writes new). rewrite Hw. reflexivity.
  - pose proof (run_keeps_latches d j
                  (ITree.forever (puts_uartlite char_signed uartlite hello_world) : itree uartE Z)
                  (after_reset w) new) as Hkeep.
    rewrite Hrun in Hkeep. cbn [world_of] in Hkeep.
    destruct (Hkeep Hlog) as (Htx & _). rewrite Htx by exact Hnone. reflexivity.
Qed.

Lemma main_sends_nothing_when_stuck_witness :
  exists w',
    run stuck (6 + 100) (main true) power_on = Running w' /\
    writes (fresh power_on w') = map (pair control_addr) (reset_words 0) /\
    tx_latch w' = 0.
Proof.
  apply (main_sends_nothing_when_stuck true stuck power_on 100).
  intros s. reflexivity.
Defined.

(* ===================================================================== *)
(** ** Resetting twice; bit-fields and characters there and back *)
(* ===================================================================== *)

Lemma set_field_high f word v i : 32 <= i -> Z.testbit (set_field f word v) i = false.
Proof.
  intros Hi. unfold set_field, u32. apply Z.mod_pow2_bits_high. lia.
Qed.

Lemma after_reset_control_again w :
  control_latch (after_reset (after_reset w)) = control_latch (after_reset w).
Proof.
  apply Z.bits_inj'. intros i Hi.
  destruct (Z.lt_ge_cases i 32) as [Hlt|Hge].
  - rewrite (reset_bits (after_reset w)) by lia.
    rewrite (reset_bits w) by lia.
    destruct ((i =? 0) || (i =? 1)); [reflexivity|].
    destruct (i =? 4); reflexivity.
  - unfold after_reset, updated_control. cbn [control_latch].
    now rewrite !set_field_high.
Qed.

Lemma reset_device_blind d d' n w :
  run d n (reset_uartlite uartlite) w = run d' n (reset_uartlite uartlite) w.
Proof.
  unfold reset_uartlite.
  rewrite !(run_bind _ (write_member uartlite tx_reset 1)),
          !write_control_any by reflexivity.
  destruct n as [|[|n]]; try reflexivity.
  rewrite !(run_bind _ (write_member uartlite rx_reset 1)),
          !write_control_any by reflexivity.
  destruct n as [|[|n]]; try reflexivity.
  rewrite !write_control_any by reflexivity. reflexivity.
Qed.

(** X8. [reset_uartlite] can be repeated and never looks at the device:
    called twice in a row it leaves the control word that one call leaves
    (a 32-bit word), does not poll, and does not touch the transmit data
    word; and at any fuel its run is the same against any two devices. *)
Theorem reset_is_idempotent (d d' : device) (w : world) (j n : nat) :
  (exists w2,
     run d (12 + j) (reset_uartlite uartlite ;; reset_uartlite uartlite) w
       = Returned tt w2 j /\
     control_latch w2 = control_latch (after_reset w) /\
     0 <= control_latch w2 < 2 ^ 32 /\
     now w2 = now w /\ tx_latch w2 = tx_latch w) /\
  run d n (reset_uartlite uartlite) w = run d' n (reset_uartlite uartlite) w.
Proof.
  split; [|apply reset_device_blind].
  exists (after_reset (after_reset w)). split.
  - rewrite run_bind. change (12 + j)%nat with (6 + (6 + j))%nat.
    rewrite !run_reset. reflexivity.
  - split; [apply after_reset_control_again|].
    split; [|split; reflexivity].
    unfold after_reset at 1, updated_control at 1. cbn [control_latch].
    unfold set_field, u32. apply Z.mod_pos_bound. reflexivity.
Qed.

Lemma get_field_bit f x i :
  0 <= i -> 0 <= f_lsb f -> 0 <= f_width f ->
  Z.testbit (get_field f x) i = Z.testbit x (i + f_lsb f) && (i <? f_width f).
Proof.
  intros Hi Hl Hw. unfold get_field.
  rewrite Z.land_spec, Z.shiftr_spec, Z.testbit_ones_nonneg by lia. reflexivity.
Qed.

(** X11. Assigning to a bit-field and reading it back gives the value
    assigned, cut to the width of the field, and every bit-field that
    shares no bit with it reads as before: the three assignments of
    [reset_uartlite] cannot disturb one another. *)
Theorem bit_field_assignment_round_trip (f g : field) (word v : Z) :
  0 <= f_lsb f -> 0 <= f_width f -> f_lsb f + f_width f <= 32 ->
  0 <= f_lsb g -> 0 <= f_width g -> f_lsb g + f_width g <= 32 ->
  f_lsb g + f_width g <= f_lsb f \/ f_lsb f + f_width f <= f_lsb g ->
  get_field f (set_field f word v) = v mod 2 ^ f_width f /\
  get_field g (set_field f word v) = get_field g word.
Proof.
  intros Hlf Hwf Hf Hlg Hwg Hg Hapart. split; apply Z.bits_inj'; intros i Hi.
  - rewrite get_field_bit by lia.
    destruct (i <? f_width f) eqn:E.
    + apply Z.ltb_lt in E. rewrite set_field_bit by lia.
      replace (f_lsb f <=? i + f_lsb f) with true by (symmetry; apply Z.leb_le; lia).
      replace (i + f_lsb f <? f_lsb f + f_width f) with true
        by (symmetry; apply Z.ltb_lt; lia).
      cbn [andb]. rewrite andb_true_r, Z.mod_pow2_bits_low by lia.
      f_equal. lia.
    + apply Z.ltb_ge in E. rewrite andb_false_r.
      symmetry. apply Z.mod_pow2_bits_high. lia.
  - rewrite !get_field_bit by lia.
    destruct (i <? f_width g) eqn:E; [|now rewrite !andb_false_r].
    apply Z.ltb_lt in E. rewrite set_field_bit by lia.
    replace ((f_lsb f <=? i + f_lsb g) && (i + f_lsb g <? f_lsb f + f_width f))
      with false by (symmetry; apply andb_false_iff; lia).
    reflexivity.
Qed.

(** Clearing [intr_enable] in an all-ones control word: the field reads
    0 and [tx_reset] still reads 1. *)
Lemma bit_field_assignment_round_trip_witness :
  get_field intr_enable (set_field intr_enable 0xFFFFFFFF 0) = 0 mod 2 ^ 1 /\
  get_field tx_reset (set_field intr_enable 0xFFFFFFFF 0) = get_field tx_reset 0xFFFFFFFF.
Proof.
  apply (bit_field_assignment_round_trip intr_enable tx_reset 0xFFFFFFFF 0);
    cbn; lia.
Defined.

Lemma char_round_trip cs c : char_of_u32 (u32_of_char cs c) = c.
Proof.
  unfold char_of_u32. rewrite u32_of_char_low. unfold byte_of.
  rewrite N2Z.id. apply ascii_N_embedding.
Qed.

(** X9. A character survives the two conversions of the driver: if the
    receive data word holds the word that [putc_uartlite] stores for [c]
    (a loop-back), then [getc_uartlite] returns [c], whether plain [char]
    is signed or not. *)
Theorem getc_reads_back_what_putc_stores
  (char_signed : bool) (d : device) (c : ascii) (w : world) fuel ch w' left :
  run d fuel (getc_uartlite uartlite) w = Returned ch w' left ->
  rx_word (d (now w')) = u32_of_char char_signed c ->
  ch = c /\ char_value char_signed ch = char_value char_signed c.
Proof.
  intros E Hword.
  destruct (getc_returned _ _ _ _ _ _ E) as (k & _ & _ & Hnow & -> & _).
  rewrite <- Hnow, Hword, char_round_trip. split; reflexivity.
Qed.

(** [echo] hands back 0xFFFFFFFF, the word stored for the character 255
    on a signed target. *)
Lemma getc_reads_back_what_putc_stores_witness :
  "255"%char = "255"%char /\ char_value true "255" = char_value true "255".
Proof.
  apply (getc_reads_back_what_putc_stores true echo "255" power_on 2 "255"
           (loaded_rx echo (polled echo 1 power_on)) 0); reflexivity.
Defined.

Lemma u32_of_char_tx_word cs c : u32_of_char cs c = tx_word cs c.
Proof.
  unfold u32_of_char, u32, char_value, tx_word.
  pose proof (byte_of_range c) as Hb. change (2 ^ 32) with 4294967296.
  destruct (cs && (128 <=? byte_of c)) eqn:E.
  - apply andb_prop in E as [_ E%Z.leb_le].
    symmetry. apply Z.mod_unique with (q := -1); lia.
  - apply Z.mod_small. lia.
Qed.

(** X10. The word [putc_uartlite] stores is the character's byte, except
    that where plain [char] is signed a character of 128 or more is
    sign-extended: the upper 24 bits of the stored word are then all ones.
    Where [char] is unsigned the stored word is always below 256. *)
Theorem putc_sign_extends
  (char_signed : bool) (d : device) (c : ascii) (w : world) fuel w' left :
  run d fuel (putc_uartlite char_signed uartlite c) w = Returned tt w' left ->
  writes (fresh w w') =
    [(tx_addr, if char_signed && (128 <=? byte_of c)
               then 0xFFFFFF00 + byte_of c else byte_of c)] /\
  tx_latch w' = tx_word char_signed c /\
  0 <= tx_word char_signed c < 2 ^ 32 /\
  (char_signed = false -> tx_word char_signed c < 256).
Proof.
  intros E. pose proof (byte_of_range c) as Hb.
  destruct (putc_any char_signed d c w fuel) as (new & Hlog & _ & Hw).
  rewrite E in Hlog, Hw. cbn [world_of] in Hlog.
  rewrite (fresh_app _ _ _ Hlog), Hw, u32_of_char_tx_word.
  split; [reflexivity|]. split; [|split].
  - rewrite run_putc in E.
    destruct (run d fuel (wait_loop tx_full truthy) w) as [r w1 [|m]|w1|w1];
      try discriminate.
    injection E as <- _. cbn [stored_tx tx_latch]. apply u32_of_char_tx_word.
  - rewrite <- u32_of_char_tx_word. unfold u32_of_char, u32.
    apply Z.mod_pos_bound. reflexivity.
  - intros ->. unfold tx_word. cbn [andb]. lia.
Qed.

Lemma putc_sign_extends_witness :
  writes (fresh power_on (stored_tx 0xFFFFFFFF (polled idle 1 power_on))) =
    [(tx_addr, 0xFFFFFF00 + byte_of "255")] /\
  tx_latch (stored_tx 0xFFFFFFFF (polled idle 1 power_on)) = tx_word true "255" /\
  0 <= tx_word true "255" < 2 ^ 32 /\
  (true = false -> tx_word true "255" < 256).
Proof.
  apply (putc_sign_extends true idle "255" power_on 2
           (stored_tx 0xFFFFFFFF (polled idle 1 power_on)) 0).
  reflexivity.
Defined.

(* ===================================================================== *)
(** ** What each side of the driver can see of the device *)
(* ===================================================================== *)

Section BlindBy.

Variables d1 d2 : device.
Variables SR XR : Z -> Z -> Prop.
Hypothesis related : forall t,
  SR (status_word (d1 t)) (status_word (d2 t)) /\
  XR (rx_word (d1 t)) (rx_word (d2 t)).

Lemma handle_agree_by {X} (e : uartE X) w1 w2 :
  alike w1 w2 ->
  match handle d1 e w1, handle d2 e w2 with
  | Some (x1, w1'), Some (x2, w2') => agree_by SR XR e x1 x2 /\ alike w1' w2'
  | None, None => True
  | _, _ => False
  end.
Proof.
  intros (Hnow & Htx & Hctl & Hw).
  destruct e as [addr|addr v|]; cbn [handle agree_by]; [| |exact I].
  - destruct (addr =? status_addr).
    + rewrite Hnow. split; [apply related|].
      repeat split; cbn [now tx_latch control_latch log]; try congruence.
      now apply alike_logged.
    + destruct (addr =? rx_addr); [|destruct (addr =? tx_addr);
        [|destruct (addr =? control_addr); [|exact I]]];
        (split; [|repeat split; cbn [now tx_latch control_latch log];
                  try congruence; now apply alike_logged]).
      * rewrite Hnow. apply related.
      * exact Htx.
      * exact Hctl.
  - destruct (addr =? tx_addr); [|destruct (addr =? control_addr);
      [|destruct ((addr =? rx_addr) || (addr =? status_addr)); [|exact I]]];
      (split; [reflexivity|]);
      repeat split; cbn [now tx_latch control_latch log]; try congruence;
      now apply alike_logged.
Qed.

Lemma sim_trigger_by {X} (e : uartE X) :
  simulates d1 d2 (agree_by SR XR e) (ITree.trigger e) (ITree.trigger e).
Proof.
  intros n w1 w2 Hw. destruct n as [|n]; [exact Hw|].
  rewrite !run_trigger. pose proof (handle_agree_by e w1 w2 Hw) as H.
  destruct (handle d1 e w1) as [[x1 w1']|], (handle d2 e w2) as [[x2 w2']|];
    cbn; try contradiction; intuition.
Qed.

Lemma sim_plain_by {X} (e : uartE X) :
  agree_by SR XR e = eq -> simulates d1 d2 eq (ITree.trigger e) (ITree.trigger e).
Proof.
  intros H. rewrite <- H. apply sim_trigger_by.
Qed.

(** A test of a status flag that [SR] does not let the devices differ
    on. *)
Lemma sim_test_flag_by f (test : Z -> bool) :
  f_offset f = f_offset status ->
  (forall v1 v2, SR v1 v2 -> test (get_field f v1) = test (get_field f v2)) ->
  simulates d1 d2 eq (v <- read_member uartlite f ;; Ret (test v))
                     (v <- read_member uartlite f ;; Ret (test v)).
Proof.
  intros Hoff Hsame. unfold read_member, load. rewrite Hoff.
  apply sim_bind with (RR := fun v1 v2 => test v1 = test v2).
  - eapply sim_bind; [apply sim_trigger_by|].
    intros v1 v2 Hv. apply sim_ret. now apply Hsame.
  - intros v1 v2 Hv. now apply sim_ret.
Qed.

Lemma sim_write_member_by f v :
  f = tx_fifo \/ f_offset f = f_offset control ->
  simulates d1 d2 eq (write_member uartlite f v) (write_member uartlite f v).
Proof.
  intros [->|Hoff].
  - now apply sim_plain_by.
  - unfold write_member. destruct (f_width f =? 32).
    + rewrite Hoff. now apply sim_plain_by.
    + rewrite Hoff. unfold load, store.
      apply sim_bind with (RR := eq); [now apply sim_plain_by|].
      intros word ? <-. now apply sim_plain_by.
Qed.

Lemma sim_reset_by :
  simulates d1 d2 eq (reset_uartlite uartlite) (reset_uartlite uartlite).
Proof.
  unfold reset_uartlite.
  apply sim_bind with (RR := eq); [|intros _ _ _; apply sim_bind with (RR := eq);
                                    [|intros _ _ _]];
    apply sim_write_member_by; now right.
Qed.

Section TransmitSide.

Hypothesis same_full : forall v1 v2, SR v1 v2 ->
  truthy (get_field tx_full v1) = truthy (get_field tx_full v2).

Lemma sim_putc_by cs c :
  simulates d1 d2 eq (putc_uartlite cs uartlite c) (putc_uartlite cs uartlite c).
Proof.
  apply sim_bind with (RR := eq).
  - apply sim_while; [|now apply sim_ret].
    now apply sim_test_flag_by.
  - intros _ _ _. apply sim_write_member_by. now left.
Qed.

Lemma sim_puts_by cs str :
  simulates d1 d2 eq (puts_uartlite cs uartlite str) (puts_uartlite cs uartlite str).
Proof.
  apply sim_iter. intros pc.
  destruct (nth_error str pc) as [ch|].
  - destruct (truthy (char_value cs ch)); [|now apply sim_ret].
    apply sim_bind with (RR := eq); [apply sim_putc_by|]. intros; now apply sim_ret.
  - apply sim_bind with (RR := eq); [now apply sim_plain_by | intros []].
Qed.

Lemma sim_main_by cs : simulates d1 d2 eq (main cs) (main cs).
Proof.
  apply sim_bind with (RR := eq); [apply sim_reset_by|]. intros _ _ _.
  apply sim_forever, sim_puts_by.
Qed.

End TransmitSide.

Section ReceiveSide.

Hypothesis same_valid : forall v1 v2, SR v1 v2 ->
  truthy (get_field rx_valid v1) = truthy (get_field rx_valid v2).
Hypothesis same_byte : forall v1 v2, XR v1 v2 -> v1 mod 2 ^ 8 = v2 mod 2 ^ 8.

Lemma sim_getc_by :
  simulates d1 d2 eq (getc_uartlite uartlite) (getc_uartlite uartlite).
Proof.
  apply sim_bind with (RR := eq).
  - apply sim_while; [|now apply sim_ret].
    apply (sim_test_flag_by rx_valid (fun v => negb (truthy v))); [reflexivity|].
    intros v1 v2 Hv. now rewrite (same_valid v1 v2 Hv).
  - intros _ _ _. unfold read_member, load.
    apply sim_bind with (RR := fun v1 v2 => char_of_u32 v1 = char_of_u32 v2).
    + eapply sim_bind; [apply sim_trigger_by|].
      intros v1 v2 Hv. apply sim_ret. rewrite !char_of_rx_field.
      change (agree_by SR XR (Load (uartlite + f_offset rx_fifo))) with XR in Hv.
      unfold char_of_u32. now rewrite (same_byte v1 v2 Hv).
    + intros v1 v2 Hv. now apply sim_ret.
Qed.

End ReceiveSide.

End BlindBy.

(** X12. The transmit side sees nothing of the device but the
    transmit-full flag.  Against two devices that agree on that flag at
    every step (and may differ in every other status bit and in the
    receive data word), [reset_uartlite], [putc_uartlite], [puts_uartlite]
    and [main] stop the same way with the same stores, at the same step
    and with the same fuel left. *)
Theorem transmit_side_sees_only_tx_full
  (char_signed : bool) (d1 d2 : device) (c : call) (fuel : nat) (w : world) :
  same_tx_full d1 d2 ->
  c <> CallGetc ->
  matching eq (run d1 fuel (invoke char_signed c) w)
              (run d2 fuel (invoke char_signed c) w).
Proof.
  intros Hsame Hc.
  set (SR := fun v1 v2 : Z =>
               truthy (get_field tx_full v1) = truthy (get_field tx_full v2)).
  set (XR := fun _ _ : Z => True).
  assert (Hrel : forall t, SR (status_word (d1 t)) (status_word (d2 t)) /\
                           XR (rx_word (d1 t)) (rx_word (d2 t)))
    by (intros t; split; [apply Hsame | exact I]).
  assert (Hfull : forall v1 v2, SR v1 v2 ->
            truthy (get_field tx_full v1) = truthy (get_field tx_full v2))
    by auto.
  destruct c; try contradiction;
    (eapply sim_bind with (RR := eq); [|intros ? ? <-; now apply sim_ret|apply alike_refl]).
  - apply (sim_reset_by d1 d2 SR XR Hrel).
  - apply (sim_putc_by d1 d2 SR XR Hrel Hfull).
  - apply (sim_puts_by d1 d2 SR XR Hrel Hfull).
  - apply (sim_main_by d1 d2 SR XR Hrel Hfull).
Qed.

Lemma blinking_same_tx_full : same_tx_full blinking blinking'.
Proof.
  intros t. unfold tx_is_full, waits, blinking, blinking'.
  destruct (Nat.even t); reflexivity.
Defined.

(** Two rounds' worth of [main] against [blinking] and [blinking']. *)
Lemma transmit_side_sees_only_tx_full_witness :
  matching eq (run blinking 200 (invoke true CallMain) power_on)
              (run blinking' 200 (invoke true CallMain) power_on).
Proof.
  apply (transmit_side_sees_only_tx_full true blinking blinking' CallMain 200 power_on).
  - exact blinking_same_tx_full.
  - discriminate.
Defined.

(** X13. The receive side sees nothing of the device but the
    receive-valid flag and the low byte of the receive data word.  Against
    two devices that agree on those at every step, [getc_uartlite] stops
    the same way, with the same character if it returns, at the same step
    and with the same fuel left. *)
Theorem receive_side_sees_only_valid_and_low_byte
  (d1 d2 : device) (fuel : nat) (w : world) :
  same_rx_side d1 d2 ->
  matching eq (run d1 fuel (getc_uartlite uartlite) w)
              (run d2 fuel (getc_uartlite uartlite) w).
Proof.
  intros Hsame.
  set (SR := fun v1 v2 : Z =>
               truthy (get_field rx_valid v1) = truthy (get_field rx_valid v2)).
  set (XR := fun v1 v2 : Z => v1 mod 2 ^ 8 = v2 mod 2 ^ 8).
  assert (Hrel : forall t, SR (status_word (d1 t)) (status_word (d2 t)) /\
                           XR (rx_word (d1 t)) (rx_word (d2 t)))
    by (intros t; split; apply Hsame).
  apply (sim_getc_by d1 d2 SR XR Hrel); auto. apply alike_refl.
Qed.

Lemma blinking_same_rx_side : same_rx_side blinking blinking''.
Proof.
  intros t. unfold rx_is_valid, waits, blinking, blinking''.
  destruct (Nat.even t); split; reflexivity.
Defined.

Lemma receive_side_sees_only_valid_and_low_byte_witness :
  matching eq (run blinking 9 (getc_uartlite uartlite) power_on)
              (run blinking'' 9 (getc_uartlite uartlite) power_on).
Proof.
  apply (receive_side_sees_only_valid_and_low_byte blinking blinking'' 9 power_on).
  exact blinking_same_rx_side.
Defined.
